(** * AgentBridge contract: state-transition engine and discovery

    A shallow embedding of the AgentBridge contract ([handlers] of the
    [agentbridge] module) and of the [discover] reader of the
    [agentbridge-protocol] module, with the properties of the directory
    that the design document states about them.

    Conventions of the embedding.

    - JavaScript numbers that carry fractions (proficiency, score, rating,
      averageRating) are exact rationals [Qc]; NaN and the infinities are
      not represented and no rounding takes place.  Timestamps, ttl,
      counters and limits are integers [Z].
    - A plain object used as a dictionary is a finite map: [gmap string V]
      when only lookups and writes occur, and an insertion-ordered
      association list ([obj V]) for [state.agents], whose
      [Object.values] order is observable through [discover].  Keys are
      assumed not to be array-index-like strings nor names inherited from
      [Object.prototype]: a lookup finds an own entry or nothing.  On a
      name such as [constructor] or [toString] the source finds an
      inherited function instead ([agent_register], [agent_update],
      [agent_unregister] and [channel_join] then throw a TypeError,
      [match_complete] stores a request without fields); the properties
      that this would falsify carry the hypothesis [plain_history].
    - [undefined] (an absent field) is [None]; for [certifiedBy],
      [certifiedAt] and [reputation] [null] is [None] as well.
    - A handler starts with [const newState = { ...state }], a shallow
      copy: nested objects and arrays stay shared with the caller's
      [state] until they are replaced.  Every handler therefore yields an
      [Outcome]: the caller's object as the writes through those aliases
      leave it ([input_after]) together with what the call itself did
      ([completion]: the returned object, or the error thrown). *)

From Stdlib Require Import QArith Qcanon.
From stdpp Require Import gmap strings list fin_maps pretty sorting.

Local Open Scope Qc_scope.
Local Open Scope Z_scope.

(** ** JavaScript primitives *)

Module Js.

Definition half : Qc := Q2Qc (1 # 2).

(** [Math.max] and [Math.min] on two numbers. *)
Definition Math_max (a b : Qc) : Qc := if decide (a ≤ b)%Qc then b else a.
Definition Math_min (a b : Qc) : Qc := if decide (a ≤ b)%Qc then a else b.

(** Truthiness of an optional string. *)
Definition truthy_str (x : option string) : bool :=
  match x with
  | Some s => bool_decide (s ≠ "")
  | None => false
  end.

(** [x || d] on an optional number / string. *)
Definition or_num (x : option Qc) (d : Qc) : Qc :=
  match x with
  | Some q => if bool_decide (q = 0%Qc) then d else q
  | None => d
  end.

Definition or_str (x : option string) (d : string) : string :=
  match x with
  | Some s => if bool_decide (s = "") then d else s
  | None => d
  end.

(** [arr.includes(x)] on an array of strings. *)
Definition includes (arr : list string) (x : string) : bool :=
  bool_decide (x ∈ arr).

(** [arr.indexOf(x)] followed by [arr.splice(idx, 1)] when [idx > -1]:
    the first occurrence of [x] is dropped. *)
Fixpoint splice_first (x : string) (arr : list string) : list string :=
  match arr with
  | [] => []
  | y :: rest => if bool_decide (y = x) then rest else y :: splice_first x rest
  end.

(** [arr.slice(0, n)]: a negative [n] counts from the end. *)
Definition slice0 {A} (n : Z) (arr : list A) : list A :=
  if decide (0 ≤ n) then take (Z.to_nat n) arr
  else take (Z.to_nat (Z.of_nat (length arr) + n)) arr.

(** [s.slice(0, 8)] on a string. *)
Definition str_slice8 (s : string) : string := String.substring 0 8 s.

(** An insertion-ordered object used as a dictionary. *)
Abbreviation obj V := (list (string * V)).

Fixpoint obj_get {V} (k : string) (o : obj V) : option V :=
  match o with
  | [] => None
  | (k', v) :: rest => if bool_decide (k' = k) then Some v else obj_get k rest
  end.

(** [o[k] = v]: an existing key keeps its position, a new key goes last. *)
Fixpoint obj_set {V} (k : string) (v : V) (o : obj V) : obj V :=
  match o with
  | [] => [(k, v)]
  | (k', v') :: rest =>
      if bool_decide (k' = k) then (k', v) :: rest
      else (k', v') :: obj_set k v rest
  end.

(** [delete o[k]]. *)
Definition obj_delete {V} (k : string) (o : obj V) : obj V :=
  filter (λ p, p.1 ≠ k) o.

(** [Object.values(o)]. *)
Definition obj_values {V} (o : obj V) : list V := o.*2.

Definition obj_keys {V} (o : obj V) : list string := o.*1.

End Js.

Import Js.

(** ** Data model *)

Module Capability.
Record t := mk {
  name : string;
  proficiency : Qc;
  certified : bool;
  certifiedBy : option string;
  certifiedAt : option Z
}.
End Capability.

(** A capability entry of a register / update payload. *)
Module CapInput.
Record t := mk {
  name : string;
  proficiency : option Qc;
  certified : option bool
}.
End CapInput.

Module Agent.
Record t := mk {
  id : string;
  name : string;
  description : string;
  capabilities : list Capability.t;
  protocol : string;
  visibility : string;
  endpoint : option string;
  status : string;
  createdAt : Z;
  updatedAt : Z;
  matchCount : Z;
  successCount : Z
}.

Definition names (a : t) : list string := Capability.name <$> capabilities a.

Definition with_matchCount (n : Z) (a : t) : t :=
  mk (id a) (name a) (description a) (capabilities a) (protocol a)
     (visibility a) (endpoint a) (status a) (createdAt a) (updatedAt a)
     n (successCount a).

Definition with_successCount (n : Z) (a : t) : t :=
  mk (id a) (name a) (description a) (capabilities a) (protocol a)
     (visibility a) (endpoint a) (status a) (createdAt a) (updatedAt a)
     (matchCount a) n.
End Agent.

Module MatchRequest.
Record t := mk {
  id : string;
  requesterId : string;
  requiredCapabilities : list string;
  minScore : Qc;
  taskDescription : string;
  preferredProtocols : list string;
  expiresAt : Z;
  createdAt : Z;
  status : string;
  acceptedWith : option string;
  acceptedAt : option Z;
  completedAt : option Z;
  success : option bool;
  rating : option Qc;
  feedback : option string
}.
End MatchRequest.

Module MatchProposal.
Record t := mk {
  matchId : string;
  proposerId : string;
  score : Qc;
  matchedCapabilities : list string;
  proposedAt : Z;
  status : string
}.

Definition with_status (s : string) (p : t) : t :=
  mk (matchId p) (proposerId p) (score p) (matchedCapabilities p)
     (proposedAt p) s.
End MatchProposal.

Module Rating.
Record t := mk {
  rating : Qc;
  from : string;
  matchId : string;
  timestamp : Z
}.
End Rating.

Module Reputation.
Record t := mk {
  totalRatings : Z;
  averageRating : Qc;
  ratings : list Rating.t
}.
End Reputation.

Module Stats.
Record t := mk {
  totalAgents : Z;
  totalMatches : Z;
  successfulMatches : Z;
  totalChannels : Z;
  totalMessages : Z
}.
End Stats.

(** ** Command payloads and context *)

Module Context.
Record t := mk { writer : string; timestamp : Z }.
End Context.

Module RegisterPayload.
Record t := mk {
  name : option string;
  description : option string;
  capabilities : option (list CapInput.t);
  protocol : option string;
  visibility : option string;
  endpoint : option string
}.
End RegisterPayload.

Module UpdatePayload.
(** [endpoint]: [None] is [undefined], [Some None] is [null]. *)
Record t := mk {
  status : option string;
  capabilities : option (list CapInput.t);
  visibility : option string;
  endpoint : option (option string)
}.
End UpdatePayload.

Module CreatePayload.
Record t := mk {
  requiredCapabilities : option (list string);
  minScore : option Qc;
  taskDescription : option string;
  ttl : option Z;
  preferredProtocols : option (list string)
}.
End CreatePayload.

Module ProposePayload.
Record t := mk {
  matchId : string;
  score : Qc;
  matchedCapabilities : list string
}.
End ProposePayload.

Module AcceptPayload.
Record t := mk { matchId : string; proposerId : string }.
End AcceptPayload.

Module CompletePayload.
Record t := mk {
  matchId : string;
  success : option bool;
  rating : option Qc;
  feedback : option string
}.
End CompletePayload.

Module ChannelPayload.
Record t := mk { channelId : string }.
End ChannelPayload.

(** ** Events and state *)

Inductive Event :=
  | agent_registered (agentId : string) (agent : Agent.t)
  | agent_updated (agentId : string) (updates : UpdatePayload.t)
  | agent_unregistered (agentId : string)
  | match_request_created (matchId : string) (request : MatchRequest.t)
  | match_proposed (matchId : string) (proposal : MatchProposal.t)
  | match_accepted (matchId requesterId proposerId channel : string)
  | match_completed (matchId : string) (success : bool) (rating : option Qc)
  | channel_joined (channelId agentId : string)
  | channel_left (channelId agentId : string).

Module State.
Record t := mk {
  agents : obj Agent.t;
  capabilityIndex : gmap string (list string);
  matchRequests : gmap string MatchRequest.t;
  matchProposals : gmap string MatchProposal.t;
  channelMembers : gmap string (list string);
  reputation : gmap string Reputation.t;
  stats : Stats.t;
  _event : option Event
}.
End State.

(** The [state] field of the contract module. *)
Definition initial_state : State.t :=
  State.mk [] ∅ ∅ ∅ ∅ ∅ (Stats.mk 0 0 0 0 0) None.

(** ** Errors *)

Inductive Error :=
  | AgentNameRequired
  | DuplicateName
  | NotRegistered
  | EmptyCapabilitySet
  | RequestNotFound
  | RequestExpired
  | RequestNotPending
  | ProposerNotRegistered
  | Unauthorized
  | ProposalNotFound.

(** The message each [throw new Error(...)] carries. *)
Definition error_message (e : Error) : string :=
  match e with
  | AgentNameRequired => "Agent name is required"
  | DuplicateName => "Agent name already registered"
  | NotRegistered => "Agent not registered"
  | EmptyCapabilitySet => "At least one required capability is needed"
  | RequestNotFound => "Match request not found"
  | RequestExpired => "Match request expired"
  | RequestNotPending => "Match request no longer pending"
  | ProposerNotRegistered => "Proposer agent not registered"
  | Unauthorized => "Only the request creator can accept proposals"
  | ProposalNotFound => "Proposal not found"
  end.

Inductive Completion :=
  | Throw (e : Error)
  | Return (newState : State.t).

Record Outcome := mkOutcome {
  input_after : State.t;
  completion : Completion
}.

(** A [throw] that precedes every write. *)
Definition throws (state : State.t) (e : Error) : Outcome :=
  mkOutcome state (Throw e).

(** ** Capability index *)

Section Index.
Variable agentId : string.

(** One turn of the loop that seeds the index:
    [if (!index[name]) index[name] = [];
     if (!index[name].includes(agentId)) index[name].push(agentId)],
    for a name the index can only hold as an own key ([own_name] below);
    on a name inherited from [Object.prototype] the source finds a
    function and throws a TypeError at [includes]. *)
Definition index_add (index : gmap string (list string)) (capName : string)
    : gmap string (list string) :=
  let index1 :=
    match index !! capName with
    | None => <[capName := []]> index
    | Some _ => index
    end in
  match index1 !! capName with
  | Some arr =>
      if includes arr agentId then index1
      else <[capName := arr ++ [agentId]]> index1
  | None => index1
  end.

(** One turn of the loop that clears the index:
    [const idx = index[name]?.indexOf(agentId);
     if (idx > -1) index[name].splice(idx, 1)], again for an own name:
    on an inherited one the source throws a TypeError at [indexOf]. *)
Definition index_remove (index : gmap string (list string)) (capName : string)
    : gmap string (list string) :=
  alter (splice_first agentId) capName index.

Definition index_add_all (index : gmap string (list string))
    (capNames : list string) : gmap string (list string) :=
  foldl index_add index capNames.

Definition index_remove_all (index : gmap string (list string))
    (capNames : list string) : gmap string (list string) :=
  foldl index_remove index capNames.
End Index.

(** ** State handlers *)

(** [Math.min(1, Math.max(0, cap.proficiency || 0.5))]. *)
Definition stored_proficiency (p : option Qc) : Qc :=
  Math_min 1%Qc (Math_max 0%Qc (or_num p half)).

Definition agent_register (state : State.t) (payload : RegisterPayload.t)
    (context : Context.t) : Outcome :=
  let capabilities := default [] (RegisterPayload.capabilities payload) in
  let protocol := default "intercom" (RegisterPayload.protocol payload) in
  let visibility := default "public" (RegisterPayload.visibility payload) in
  let writer := Context.writer context in
  let timestamp := Context.timestamp context in
  match RegisterPayload.name payload with
  | None => throws state AgentNameRequired
  | Some name =>
    if bool_decide (name = "") then throws state AgentNameRequired else
    match List.find (λ a, bool_decide (Agent.name a = name))
                    (obj_values (State.agents state)) with
    | Some _ => throws state DuplicateName
    | None =>
      let agentId := writer in
      let agent :=
        Agent.mk agentId name
          (or_str (RegisterPayload.description payload) "")
          ((λ cap,
             let certified := default false (CapInput.certified cap) in
             Capability.mk (CapInput.name cap)
               (stored_proficiency (CapInput.proficiency cap))
               certified
               (if certified then Some writer else None)
               (if certified then Some timestamp else None)) <$> capabilities)
          protocol visibility
          (match RegisterPayload.endpoint payload with
           | Some e => if bool_decide (e = "") then None else Some e
           | None => None
           end)
          "online" timestamp timestamp 0 0 in
      (* [newState.agents] and [newState.capabilityIndex] are the caller's
         objects; [newState.stats] is a copy. *)
      let agents' := obj_set agentId agent (State.agents state) in
      let index' :=
        index_add_all agentId (State.capabilityIndex state)
                      (CapInput.name <$> capabilities) in
      let stats := State.stats state in
      let stats' :=
        Stats.mk (Stats.totalAgents stats + 1) (Stats.totalMatches stats)
          (Stats.successfulMatches stats) (Stats.totalChannels stats)
          (Stats.totalMessages stats) in
      mkOutcome
        (State.mk agents' index' (State.matchRequests state)
           (State.matchProposals state) (State.channelMembers state)
           (State.reputation state) stats (State._event state))
        (Return
           (State.mk agents' index' (State.matchRequests state)
              (State.matchProposals state) (State.channelMembers state)
              (State.reputation state) stats'
              (Some (agent_registered agentId agent))))
    end
  end.

Definition agent_update (state : State.t) (payload : UpdatePayload.t)
    (context : Context.t) : Outcome :=
  let writer := Context.writer context in
  let timestamp := Context.timestamp context in
  let agentId := writer in
  match obj_get agentId (State.agents state) with
  | None => throws state NotRegistered
  | Some existingAgent =>
    let status' :=
      match UpdatePayload.status payload with
      | Some s =>
          if includes ["online"; "offline"; "busy"] s then s
          else Agent.status existingAgent
      | None => Agent.status existingAgent
      end in
    (* The old entries are spliced out of the caller's arrays; then
       [newState.capabilityIndex] becomes a shallow copy, so a push onto
       an array that existed reaches the caller, a fresh key does not. *)
    let '(capabilities', index', input_index) :=
      match UpdatePayload.capabilities payload with
      | Some capabilities =>
          let removed :=
            index_remove_all agentId (State.capabilityIndex state)
                             (Agent.names existingAgent) in
          let added :=
            index_add_all agentId removed (CapInput.name <$> capabilities) in
          ((λ cap,
              Capability.mk (CapInput.name cap)
                (stored_proficiency (CapInput.proficiency cap))
                (default false (CapInput.certified cap))
                None None) <$> capabilities,
           added,
           map_imap (λ k _, added !! k) removed)
      | None =>
          (Agent.capabilities existingAgent, State.capabilityIndex state,
           State.capabilityIndex state)
      end in
    let visibility' :=
      match UpdatePayload.visibility payload with
      | Some v =>
          if includes ["public"; "private"] v then v
          else Agent.visibility existingAgent
      | None => Agent.visibility existingAgent
      end in
    let endpoint' :=
      match UpdatePayload.endpoint payload with
      | Some e => e
      | None => Agent.endpoint existingAgent
      end in
    let updatedAgent :=
      Agent.mk (Agent.id existingAgent) (Agent.name existingAgent)
        (Agent.description existingAgent) capabilities'
        (Agent.protocol existingAgent) visibility' endpoint' status'
        (Agent.createdAt existingAgent) timestamp
        (Agent.matchCount existingAgent) (Agent.successCount existingAgent) in
    let agents' := obj_set agentId updatedAgent (State.agents state) in
    mkOutcome
      (State.mk agents' input_index (State.matchRequests state)
         (State.matchProposals state) (State.channelMembers state)
         (State.reputation state) (State.stats state) (State._event state))
      (Return
         (State.mk agents' index' (State.matchRequests state)
            (State.matchProposals state) (State.channelMembers state)
            (State.reputation state) (State.stats state)
            (Some (agent_updated agentId payload))))
  end.

Definition agent_unregister (state : State.t) (context : Context.t)
    : Outcome :=
  let writer := Context.writer context in
  let agentId := writer in
  match obj_get agentId (State.agents state) with
  | None => throws state NotRegistered
  | Some existingAgent =>
    (* Both the splices and the [delete] act on the caller's objects. *)
    let index' :=
      index_remove_all agentId (State.capabilityIndex state)
                       (Agent.names existingAgent) in
    let agents' := obj_delete agentId (State.agents state) in
    let stats := State.stats state in
    let stats' :=
      Stats.mk (Stats.totalAgents stats - 1) (Stats.totalMatches stats)
        (Stats.successfulMatches stats) (Stats.totalChannels stats)
        (Stats.totalMessages stats) in
    mkOutcome
      (State.mk agents' index' (State.matchRequests state)
         (State.matchProposals state) (State.channelMembers state)
         (State.reputation state) stats (State._event state))
      (Return
         (State.mk agents' index' (State.matchRequests state)
            (State.matchProposals state) (State.channelMembers state)
            (State.reputation state) stats'
            (Some (agent_unregistered agentId))))
  end.

Definition match_create (state : State.t) (payload : CreatePayload.t)
    (context : Context.t) : Outcome :=
  let requiredCapabilities :=
    default [] (CreatePayload.requiredCapabilities payload) in
  let minScore := default half (CreatePayload.minScore payload) in
  let ttl := default 300 (CreatePayload.ttl payload) in
  let preferredProtocols :=
    default [] (CreatePayload.preferredProtocols payload) in
  let writer := Context.writer context in
  let timestamp := Context.timestamp context in
  if bool_decide (length requiredCapabilities = 0%nat)
  then throws state EmptyCapabilitySet
  else
    let matchId := "match-" +:+ str_slice8 writer +:+ "-" +:+ pretty timestamp in
    let expiresAt := timestamp + ttl * 1000 in
    let request :=
      MatchRequest.mk matchId writer requiredCapabilities minScore
        (or_str (CreatePayload.taskDescription payload) "")
        preferredProtocols expiresAt timestamp "pending"
        None None None None None None in
    let stats := State.stats state in
    let stats' :=
      Stats.mk (Stats.totalAgents stats) (Stats.totalMatches stats + 1)
        (Stats.successfulMatches stats) (Stats.totalChannels stats)
        (Stats.totalMessages stats) in
    mkOutcome state
      (Return
         (State.mk (State.agents state) (State.capabilityIndex state)
            (<[matchId := request]> (State.matchRequests state))
            (State.matchProposals state) (State.channelMembers state)
            (State.reputation state) stats'
            (Some (match_request_created matchId request)))).

(** The key of a proposal: [`${matchId}-${proposerId}`]. *)
Definition proposalKey (matchId proposerId : string) : string :=
  matchId +:+ "-" +:+ proposerId.

Definition match_propose (state : State.t) (payload : ProposePayload.t)
    (context : Context.t) : Outcome :=
  let matchId := ProposePayload.matchId payload in
  let writer := Context.writer context in
  let timestamp := Context.timestamp context in
  match State.matchRequests state !! matchId with
  | None => throws state RequestNotFound
  | Some request =>
    if bool_decide (MatchRequest.expiresAt request < timestamp)
    then throws state RequestExpired
    else if bool_decide (MatchRequest.status request ≠ "pending")
    then throws state RequestNotPending
    else
      match obj_get writer (State.agents state) with
      | None => throws state ProposerNotRegistered
      | Some _ =>
        let proposal :=
          MatchProposal.mk matchId writer
            (Math_min 1%Qc (Math_max 0%Qc (ProposePayload.score payload)))
            (ProposePayload.matchedCapabilities payload) timestamp
            "proposed" in
        mkOutcome state
          (Return
             (State.mk (State.agents state) (State.capabilityIndex state)
                (State.matchRequests state)
                (<[proposalKey matchId writer := proposal]>
                   (State.matchProposals state))
                (State.channelMembers state) (State.reputation state)
                (State.stats state)
                (Some (match_proposed matchId proposal))))
      end
  end.

Definition match_accept (state : State.t) (payload : AcceptPayload.t)
    (context : Context.t) : Outcome :=
  let matchId := AcceptPayload.matchId payload in
  let proposerId := AcceptPayload.proposerId payload in
  let writer := Context.writer context in
  let timestamp := Context.timestamp context in
  match State.matchRequests state !! matchId with
  | None => throws state RequestNotFound
  | Some request =>
    if bool_decide (MatchRequest.requesterId request ≠ writer)
    then throws state Unauthorized
    else
      match State.matchProposals state !! proposalKey matchId proposerId with
      | None => throws state ProposalNotFound
      | Some proposal =>
        let request' :=
          MatchRequest.mk (MatchRequest.id request)
            (MatchRequest.requesterId request)
            (MatchRequest.requiredCapabilities request)
            (MatchRequest.minScore request)
            (MatchRequest.taskDescription request)
            (MatchRequest.preferredProtocols request)
            (MatchRequest.expiresAt request) (MatchRequest.createdAt request)
            "accepted" (Some proposerId) (Some timestamp)
            (MatchRequest.completedAt request) (MatchRequest.success request)
            (MatchRequest.rating request) (MatchRequest.feedback request) in
        (* [requester] and [proposer] are both read before either write. *)
        let requester := obj_get writer (State.agents state) in
        let proposer := obj_get proposerId (State.agents state) in
        let agents1 :=
          match requester with
          | Some a =>
              obj_set writer
                (Agent.with_matchCount (Agent.matchCount a + 1) a)
                (State.agents state)
          | None => State.agents state
          end in
        let agents2 :=
          match proposer with
          | Some a =>
              obj_set proposerId
                (Agent.with_matchCount (Agent.matchCount a + 1) a) agents1
          | None => agents1
          end in
        mkOutcome state
          (Return
             (State.mk agents2 (State.capabilityIndex state)
                (<[matchId := request']> (State.matchRequests state))
                (<[proposalKey matchId proposerId :=
                     MatchProposal.with_status "accepted" proposal]>
                   (State.matchProposals state))
                (State.channelMembers state) (State.reputation state)
                (State.stats state)
                (Some (match_accepted matchId writer proposerId
                         ("match-" +:+ matchId)))))
      end
  end.

(** [rep.ratings.reduce((sum, r) => sum + r.rating, 0)]. *)
Definition ratings_sum (ratings : list Rating.t) : Qc :=
  foldl (λ sum r, (sum + Rating.rating r)%Qc) 0%Qc ratings.

(** [match_complete], for a match id that the request map can only hold
    as an own key: on an id inherited from [Object.prototype] the source
    finds a function, takes it for the request and stores a request
    without fields, where this definition throws [RequestNotFound]. *)
Definition match_complete (state : State.t) (payload : CompletePayload.t)
    (context : Context.t) : Outcome :=
  let matchId := CompletePayload.matchId payload in
  let success := default true (CompletePayload.success payload) in
  let rating := CompletePayload.rating payload in
  let writer := Context.writer context in
  let timestamp := Context.timestamp context in
  match State.matchRequests state !! matchId with
  | None => throws state RequestNotFound
  | Some request =>
    let request' :=
      MatchRequest.mk (MatchRequest.id request)
        (MatchRequest.requesterId request)
        (MatchRequest.requiredCapabilities request)
        (MatchRequest.minScore request)
        (MatchRequest.taskDescription request)
        (MatchRequest.preferredProtocols request)
        (MatchRequest.expiresAt request) (MatchRequest.createdAt request)
        "completed" (MatchRequest.acceptedWith request)
        (MatchRequest.acceptedAt request) (Some timestamp) (Some success)
        rating (CompletePayload.feedback payload) in
    let matchRequests' := <[matchId := request']> (State.matchRequests state) in
    let stats := State.stats state in
    let stats' :=
      Stats.mk (Stats.totalAgents stats) (Stats.totalMatches stats)
        (if success then Stats.successfulMatches stats + 1
         else Stats.successfulMatches stats)
        (Stats.totalChannels stats) (Stats.totalMessages stats) in
    let event := Some (match_completed matchId success rating) in
    let unrated :=
      mkOutcome state
        (Return
           (State.mk (State.agents state) (State.capabilityIndex state)
              matchRequests' (State.matchProposals state)
              (State.channelMembers state) (State.reputation state)
              stats' event)) in
    (* [if (rating && request.acceptedWith)]: a number other than 0 and
       a non-empty string. *)
    match rating, MatchRequest.acceptedWith request with
    | Some r, Some acceptedWith =>
      if bool_decide (r ≠ 0%Qc) && bool_decide (acceptedWith ≠ "") then
        let targetId :=
          if bool_decide (writer = MatchRequest.requesterId request)
          then acceptedWith else MatchRequest.requesterId request in
        let existing := State.reputation state !! targetId in
        let rep := default (Reputation.mk 0 0%Qc []) existing in
        let ratings' :=
          Reputation.ratings rep ++ [Rating.mk r writer matchId timestamp] in
        let totalRatings' := Reputation.totalRatings rep + 1 in
        let rep' :=
          Reputation.mk totalRatings'
            (ratings_sum ratings' / Qc_of_Z totalRatings')%Qc ratings' in
        let agents' :=
          if success then
            match obj_get targetId (State.agents state) with
            | Some a =>
                obj_set targetId
                  (Agent.with_successCount (Agent.successCount a + 1) a)
                  (State.agents state)
            | None => State.agents state
            end
          else State.agents state in
        (* [newState.reputation] is a shallow copy: a record that existed
           is the caller's own object and is updated in place. *)
        mkOutcome
          (State.mk (State.agents state) (State.capabilityIndex state)
             (State.matchRequests state) (State.matchProposals state)
             (State.channelMembers state)
             (match existing with
              | Some _ => <[targetId := rep']> (State.reputation state)
              | None => State.reputation state
              end)
             (State.stats state) (State._event state))
          (Return
             (State.mk agents' (State.capabilityIndex state)
                matchRequests' (State.matchProposals state)
                (State.channelMembers state)
                (<[targetId := rep']> (State.reputation state))
                stats' event))
      else unrated
    | _, _ => unrated
    end
  end.

(** [channel_join], for a channel id that the channel map can only hold
    as an own key: on an id inherited from [Object.prototype] the source
    throws a TypeError at [includes] and adds nobody. *)
Definition channel_join (state : State.t) (payload : ChannelPayload.t)
    (context : Context.t) : Outcome :=
  let channelId := ChannelPayload.channelId payload in
  let writer := Context.writer context in
  match obj_get writer (State.agents state) with
  | None => throws state NotRegistered
  | Some _ =>
    let existing := State.channelMembers state !! channelId in
    let members := default [] existing in
    let stats := State.stats state in
    let stats' :=
      match existing with
      | None =>
          Stats.mk (Stats.totalAgents stats) (Stats.totalMatches stats)
            (Stats.successfulMatches stats) (Stats.totalChannels stats + 1)
            (Stats.totalMessages stats)
      | Some _ => stats
      end in
    let members' :=
      if includes members writer then members else members ++ [writer] in
    (* A member list that existed is the caller's array: the push
       reaches it. *)
    mkOutcome
      (State.mk (State.agents state) (State.capabilityIndex state)
         (State.matchRequests state) (State.matchProposals state)
         (match existing with
          | Some _ => <[channelId := members']> (State.channelMembers state)
          | None => State.channelMembers state
          end)
         (State.reputation state) (State.stats state) (State._event state))
      (Return
         (State.mk (State.agents state) (State.capabilityIndex state)
            (State.matchRequests state) (State.matchProposals state)
            (<[channelId := members']> (State.channelMembers state))
            (State.reputation state) stats'
            (Some (channel_joined channelId writer))))
  end.

Definition channel_leave (state : State.t) (payload : ChannelPayload.t)
    (context : Context.t) : Outcome :=
  let channelId := ChannelPayload.channelId payload in
  let writer := Context.writer context in
  (* The splice acts on the caller's array. *)
  let channelMembers' :=
    alter (splice_first writer) channelId (State.channelMembers state) in
  mkOutcome
    (State.mk (State.agents state) (State.capabilityIndex state)
       (State.matchRequests state) (State.matchProposals state)
       channelMembers' (State.reputation state) (State.stats state)
       (State._event state))
    (Return
       (State.mk (State.agents state) (State.capabilityIndex state)
          (State.matchRequests state) (State.matchProposals state)
          channelMembers' (State.reputation state) (State.stats state)
          (Some (channel_left channelId writer)))).

Definition message_record (state : State.t) : Outcome :=
  let stats := State.stats state in
  mkOutcome state
    (Return
       (State.mk (State.agents state) (State.capabilityIndex state)
          (State.matchRequests state) (State.matchProposals state)
          (State.channelMembers state) (State.reputation state)
          (Stats.mk (Stats.totalAgents stats) (Stats.totalMatches stats)
             (Stats.successfulMatches stats) (Stats.totalChannels stats)
             (Stats.totalMessages stats + 1))
          (State._event state))).

(** ** Dispatch *)

(** The [handlers] table, as a closed sum of commands. *)
Inductive Command :=
  | AgentRegister (payload : RegisterPayload.t)
  | AgentUpdate (payload : UpdatePayload.t)
  | AgentUnregister
  | MatchCreate (payload : CreatePayload.t)
  | MatchPropose (payload : ProposePayload.t)
  | MatchAccept (payload : AcceptPayload.t)
  | MatchComplete (payload : CompletePayload.t)
  | ChannelJoin (payload : ChannelPayload.t)
  | ChannelLeave (payload : ChannelPayload.t)
  | MessageRecord.

Definition handlers (cmd : Command) (state : State.t) (context : Context.t)
    : Outcome :=
  match cmd with
  | AgentRegister payload => agent_register state payload context
  | AgentUpdate payload => agent_update state payload context
  | AgentUnregister => agent_unregister state context
  | MatchCreate payload => match_create state payload context
  | MatchPropose payload => match_propose state payload context
  | MatchAccept payload => match_accept state payload context
  | MatchComplete payload => match_complete state payload context
  | ChannelJoin payload => channel_join state payload context
  | ChannelLeave payload => channel_leave state payload context
  | MessageRecord => message_record state
  end.

(** The host's side of a delivery.  The peer runtime that calls the
    handlers is not part of the repository; after the design document it
    delivers one command at a time, the view becomes the object the
    handler returns, and a command that throws is dropped, which leaves
    the host's object as the handler left it. *)
Definition deliver (view : State.t) (c : Command * Context.t) : State.t :=
  let out := handlers c.1 view c.2 in
  match completion out with
  | Return view' => view'
  | Throw _ => input_after out
  end.

Definition replay (cs : list (Command * Context.t)) : State.t :=
  foldl deliver initial_state cs.

(** ** Discovery (the [discover] reader) *)

Module DiscoverParams.
Record t := mk {
  capabilities : option (list string);
  categories : option (list string);
  minProficiency : option Qc;
  status : option string;
  limit : option Z
}.
End DiscoverParams.

Module DiscoverEntry.
Record t := mk {
  id : string;
  name : string;
  description : string;
  status : string;
  protocol : string;
  capabilities : list Capability.t;
  matchedCapabilities : list string;
  matchScore : Qc;
  reputation : option Reputation.t
}.
End DiscoverEntry.

Module DiscoverResult.
Record t := mk { agents : list DiscoverEntry.t; total : nat }.
End DiscoverResult.

(** [set.add(x)] on a [Set], kept in insertion order. *)
Definition set_add (s : list string) (x : string) : list string :=
  if includes s x then s else s ++ [x].

Definition is_public (a : Agent.t) : bool :=
  bool_decide (Agent.visibility a = "public").

Section Discover.
Variable state : State.t.
Variable capabilities : list string.
Variable minProficiency : Qc.
Variable status : option string.

Definition matchingAgentIds : list string :=
  let fromIndex :=
    foldl (λ ids capName,
             foldl set_add ids
                   (default [] (State.capabilityIndex state !! capName)))
          [] capabilities in
  if bool_decide (length capabilities = 0%nat) then
    foldl set_add fromIndex
          (Agent.id <$> filter (λ a, is_public a = true)
                               (obj_values (State.agents state)))
  else fromIndex.

(** The inner loop over [agent.capabilities]: the matched names and
    [totalScore]. *)
Definition score_capabilities (caps : list Capability.t)
    : list string * Qc :=
  foldl (λ acc cap,
           if includes capabilities (Capability.name cap)
              && bool_decide (minProficiency ≤ Capability.proficiency cap)%Qc
           then (acc.1 ++ [Capability.name cap],
                 (acc.2 + Capability.proficiency cap)%Qc)
           else acc)
        ([], 0%Qc) caps.

(** The body of the loop over [matchingAgentIds]; [None] where the
    source skips the candidate. *)
Definition discover_entry (agentId : string) : option DiscoverEntry.t :=
  match obj_get agentId (State.agents state) with
  | None => None
  | Some agent =>
    if negb (is_public agent) then None
    else if truthy_str status
            && bool_decide (Some (Agent.status agent) ≠ status) then None
    else
      let '(matchedCapabilities, totalScore) :=
        score_capabilities (Agent.capabilities agent) in
      let matchScore :=
        if bool_decide (0 < length capabilities)%nat
        then (totalScore / Qc_of_Z (Z.of_nat (length capabilities)))%Qc
        else half in
      if bool_decide (0 < length matchedCapabilities)%nat
         || bool_decide (length capabilities = 0%nat)
      then Some (DiscoverEntry.mk (Agent.id agent) (Agent.name agent)
                   (Agent.description agent) (Agent.status agent)
                   (Agent.protocol agent) (Agent.capabilities agent)
                   matchedCapabilities matchScore
                   (State.reputation state !! agentId))
      else None
  end.

Definition discover_results : list DiscoverEntry.t :=
  omap discover_entry matchingAgentIds.
End Discover.

(** [results.sort((a, b) => b.matchScore - a.matchScore)]: the sort is
    stable, so equal scores keep their order. *)
Fixpoint sort_insert (x : DiscoverEntry.t) (sorted : list DiscoverEntry.t)
    : list DiscoverEntry.t :=
  match sorted with
  | [] => [x]
  | y :: rest =>
      if decide (DiscoverEntry.matchScore y ≤ DiscoverEntry.matchScore x)%Qc
      then x :: y :: rest
      else y :: sort_insert x rest
  end.

Definition sort_by_score (results : list DiscoverEntry.t)
    : list DiscoverEntry.t :=
  foldr sort_insert [] results.

Definition discover (state : State.t) (params : DiscoverParams.t)
    : DiscoverResult.t :=
  let capabilities := default [] (DiscoverParams.capabilities params) in
  let minProficiency := default 0%Qc (DiscoverParams.minProficiency params) in
  let status := DiscoverParams.status params in
  let limit := default 20 (DiscoverParams.limit params) in
  let results :=
    sort_by_score (discover_results state capabilities minProficiency status) in
  DiscoverResult.mk (slice0 limit results) (length results).

(** ** The other readers of the protocol *)

(** [get_agent]: [null] for a missing or empty id and for an id that is
    not registered. *)
Definition get_agent (state : State.t) (agentId : option string)
    : option Agent.t :=
  match agentId with
  | Some id =>
      if bool_decide (id = "") then None
      else obj_get id (State.agents state)
  | None => None
  end.

(** [get_agents]: the public agents, optionally of one status, cut to
    [limit] (50 when absent). *)
Definition get_agents (state : State.t) (status : option string)
    (limit : option Z) : list Agent.t :=
  let agents :=
    filter (λ a, is_public a = true) (obj_values (State.agents state)) in
  let agents :=
    if truthy_str status
    then filter (λ a, Some (Agent.status a) = status) agents
    else agents in
  slice0 (default 50 limit) agents.

(** [get_channel_members]: the member ids are mapped to their agents and
    the ids without an agent are dropped ([filter(Boolean)]). *)
Definition get_channel_members (state : State.t) (channelId : option string)
    : list Agent.t :=
  match channelId with
  | Some c =>
      if bool_decide (c = "") then []
      else
        omap (λ id, obj_get id (State.agents state))
             (default [] (State.channelMembers state !! c))
  | None => []
  end.

(** * Vocabulary of the properties *)

(** The arithmetic mean of a list of numbers. *)
Definition arithmetic_mean (xs : list Qc) : Qc :=
  (foldr Qcplus 0 xs / Qc_of_Z (Z.of_nat (length xs)))%Qc.


(** The party [match_complete] rates:
    [writer === request.requesterId ? request.acceptedWith
                                    : request.requesterId]. *)
Definition rated_party (writer : string) (request : MatchRequest.t)
    (acceptedWith : string) : string :=
  if bool_decide (writer = MatchRequest.requesterId request)
  then acceptedWith else MatchRequest.requesterId request.

Definition no_reputation : Reputation.t := Reputation.mk 0 0%Qc [].

Definition index_entry (state : State.t) (capName : string) : list string :=
  default [] (State.capabilityIndex state !! capName).

(** The index and the per-agent lists agree: an agent's id is listed
    under a capability name exactly when the agent lists that name. *)
Definition index_consistent (state : State.t) : Prop :=
  ∀ agentId agent capName,
    obj_get agentId (State.agents state) = Some agent →
    Agent.id agent ∈ index_entry state capName ↔ capName ∈ Agent.names agent.

Definition index_nodup (state : State.t) : Prop :=
  ∀ capName, NoDup (index_entry state capName).

(** Keys are pairwise distinct and every agent is stored under its id. *)
Definition agents_wf_obj (o : obj Agent.t) : Prop :=
  NoDup (obj_keys o) ∧ ∀ k a, obj_get k o = Some a → Agent.id a = k.

Definition agents_wf (state : State.t) : Prop :=
  agents_wf_obj (State.agents state).

(** The capability names an id stands for in the agent map. *)
Definition names_of (o : obj Agent.t) (agentId : string)
    : option (list string) :=
  Agent.names <$> obj_get agentId o.

(** The index is exact: an id is listed under a capability name exactly
    when it is the key of an agent that lists the name. *)
Definition index_exact (state : State.t) : Prop :=
  ∀ x capName,
    x ∈ index_entry state capName
    ↔ ∃ names, names_of (State.agents state) x = Some names ∧ capName ∈ names.

(** A history in which no signer registers while it is registered. *)
Definition registers_once (cs : list (Command * Context.t)) : Prop :=
  ∀ before payload context after,
    cs = before ++ (AgentRegister payload, context) :: after →
    obj_get (Context.writer context) (State.agents (replay before)) = None.

(** The test of the inner loop of [discover]: the capability is one of
    those requested and reaches the threshold. *)
Definition counts (capabilities : list string) (minProficiency : Qc)
    (cap : Capability.t) : bool :=
  includes capabilities (Capability.name cap)
  && bool_decide (minProficiency ≤ Capability.proficiency cap)%Qc.

(** The filters of [discover] that do not depend on capabilities: the
    agent is public and, when a status is asked for, has that status. *)
Definition passes_filters (status : option string) (a : Agent.t) : bool :=
  is_public a
  && negb (truthy_str status && bool_decide (Some (Agent.status a) ≠ status)).

(** The entry [discover] builds when no capability is requested. *)
Definition browse_entry (state : State.t) (a : Agent.t) : DiscoverEntry.t :=
  DiscoverEntry.mk (Agent.id a) (Agent.name a) (Agent.description a)
    (Agent.status a) (Agent.protocol a) (Agent.capabilities a) [] half
    (State.reputation state !! Agent.id a).

(** What every stored agent satisfies: a non-empty name, one of the three
    statuses, counters that are not negative and proficiencies within
    [0,1]. *)
Definition agent_ok (a : Agent.t) : Prop :=
  Agent.name a ≠ ""
  ∧ Agent.status a ∈ ["online"; "offline"; "busy"]
  ∧ 0 ≤ Agent.matchCount a
  ∧ 0 ≤ Agent.successCount a
  ∧ Forall (λ cap, (0 ≤ Capability.proficiency cap)%Qc
                   ∧ (Capability.proficiency cap ≤ 1)%Qc)
           (Agent.capabilities a).

(** What every stored proposal satisfies. *)
Definition proposal_ok (key : string) (p : MatchProposal.t) : Prop :=
  key = proposalKey (MatchProposal.matchId p) (MatchProposal.proposerId p)
  ∧ (0 ≤ MatchProposal.score p)%Qc
  ∧ (MatchProposal.score p ≤ 1)%Qc
  ∧ MatchProposal.status p ∈ ["proposed"; "accepted"].

(** What every stored match request satisfies. *)
Definition request_ok (key : string) (r : MatchRequest.t) : Prop :=
  MatchRequest.id r = key
  ∧ key = "match-" +:+ str_slice8 (MatchRequest.requesterId r) +:+ "-"
            +:+ pretty (MatchRequest.createdAt r)
  ∧ MatchRequest.requiredCapabilities r ≠ []
  ∧ MatchRequest.status r ∈ ["pending"; "accepted"; "completed"]
  ∧ (MatchRequest.status r = "pending" →
     MatchRequest.acceptedWith r = None ∧ MatchRequest.completedAt r = None)
  ∧ (MatchRequest.status r = "accepted" →
     is_Some (MatchRequest.acceptedWith r)
     ∧ is_Some (MatchRequest.acceptedAt r))
  ∧ (MatchRequest.status r = "completed" →
     is_Some (MatchRequest.completedAt r)
     ∧ is_Some (MatchRequest.success r)).

(** What every stored reputation record satisfies. *)
Definition reputation_ok (rep : Reputation.t) : Prop :=
  Reputation.ratings rep ≠ []
  ∧ Reputation.totalRatings rep = Z.of_nat (length (Reputation.ratings rep))
  ∧ Reputation.averageRating rep
    = arithmetic_mean (Rating.rating <$> Reputation.ratings rep)
  ∧ Forall (λ r, Rating.rating r ≠ 0%Qc) (Reputation.ratings rep).

Definition is_message_record (c : Command * Context.t) : bool :=
  match c.1 with
  | MessageRecord => true
  | _ => false
  end.

(** The proposal map as a whole: every entry is well formed and refers
    to a stored match request. *)
Definition proposals_ok (state : State.t) : Prop :=
  ∀ key p, State.matchProposals state !! key = Some p →
           proposal_ok key p
           ∧ is_Some (State.matchRequests state !! MatchProposal.matchId p).

Definition requests_ok (state : State.t) : Prop :=
  map_Forall request_ok (State.matchRequests state).

(** The channel map as a whole: the counter of the statistics counts
    the channels, and no member list names an agent twice. *)
Definition channels_ok (state : State.t) : Prop :=
  Stats.totalChannels (State.stats state)
  = Z.of_nat (size (State.channelMembers state))
  ∧ map_Forall (λ _ members, NoDup (members : list string))
      (State.channelMembers state).

(** A [match_create] command that passes its check. *)
Definition is_match_created (c : Command * Context.t) : bool :=
  match c.1 with
  | MatchCreate payload =>
      negb (bool_decide
              (length (default [] (CreatePayload.requiredCapabilities payload))
               = 0%nat))
  | _ => false
  end.

(** How far the counter of agents runs ahead of the agent map. *)
Definition agents_surplus (state : State.t) : Z :=
  Stats.totalAgents (State.stats state)
  - Z.of_nat (length (State.agents state)).


(** [registers_once], decided along the history from a given view. *)
Fixpoint registers_once_from (view : State.t)
    (cs : list (Command * Context.t)) : bool :=
  match cs with
  | [] => true
  | c :: rest =>
      match c.1 with
      | AgentRegister _ =>
          bool_decide
            (obj_get (Context.writer c.2) (State.agents view) = None)
      | _ => true
      end
      && registers_once_from (deliver view c) rest
  end.

(** The members of a channel; a channel that was never joined has
    none. *)
Definition members_of (state : State.t) (channelId : string) : list string :=
  default [] (State.channelMembers state !! channelId).


(** The sum of the proficiencies of a list of capabilities. *)
Definition total_proficiency (caps : list Capability.t) : Qc :=
  foldr (λ cap sum, (Capability.proficiency cap + sum)%Qc) 0%Qc caps.


(** The members every plain object inherits from [Object.prototype]:
    for these names [o[name]] finds a value although [o] has no such key
    of its own. *)
Definition prototype_names : list string :=
  [ "constructor"; "__defineGetter__"; "__defineSetter__"; "hasOwnProperty";
    "__lookupGetter__"; "__lookupSetter__"; "isPrototypeOf";
    "propertyIsEnumerable"; "toString"; "valueOf"; "__proto__";
    "toLocaleString" ].

(** A string that names nothing inherited, so that looking it up in a
    plain object finds the object's own entry or nothing. *)
Definition own_name (s : string) : Prop := s ∉ prototype_names.

#[global] Instance own_name_dec (s : string) : Decision (own_name s).
Proof. unfold own_name. apply _. Defined.

(** The strings of a payload that a handler uses as keys of an object
    of the view. *)
Definition payload_keys (cmd : Command) : list string :=
  match cmd with
  | AgentRegister payload =>
      CapInput.name <$> default [] (RegisterPayload.capabilities payload)
  | AgentUpdate payload =>
      CapInput.name <$> default [] (UpdatePayload.capabilities payload)
  | MatchPropose payload => [ProposePayload.matchId payload]
  | MatchAccept payload =>
      [AcceptPayload.matchId payload; AcceptPayload.proposerId payload]
  | MatchComplete payload => [CompletePayload.matchId payload]
  | ChannelJoin payload | ChannelLeave payload =>
      [ChannelPayload.channelId payload]
  | AgentUnregister | MatchCreate _ | MessageRecord => []
  end.

(** A command whose signer and whose keys name nothing inherited. *)
Definition plain_command (c : Command * Context.t) : Prop :=
  own_name (Context.writer c.2) ∧ Forall own_name (payload_keys c.1).

#[global] Instance plain_command_dec (c : Command * Context.t) :
  Decision (plain_command c).
Proof. unfold plain_command. apply _. Defined.

(** A history on which the lookups of the handlers are lookups of own
    keys, as the embedding has them. *)
Definition plain_history (cs : list (Command * Context.t)) : Prop :=
  Forall plain_command cs.

#[global] Instance plain_history_dec (cs : list (Command * Context.t)) :
  Decision (plain_history cs).
Proof. unfold plain_history. apply _. Defined.

(** * Concrete histories *)

(** A request created at timestamp 0 with a ttl of 60 seconds, and a
    proposal that comes one millisecond after it has expired. *)
Module Expiry.

Definition create : CreatePayload.t :=
  CreatePayload.mk (Some ["x"]) None None (Some 60) None.

Definition requester : Context.t := Context.mk "R" 0.

Definition view : State.t :=
  deliver initial_state (MatchCreate create, requester).

Definition payload : ProposePayload.t :=
  ProposePayload.mk "match-R-0" 1%Qc ["x"].

Definition late : Context.t := Context.mk "P" 60001.

End Expiry.

(** A request is created, proposed on and accepted; the requester then
    accepts the same proposal once more. *)
Module AcceptTwice.

Definition requester : Context.t := Context.mk "R" 1.
Definition proposer : Context.t := Context.mk "P" 2.

Definition commands : list (Command * Context.t) :=
  [ (AgentRegister
       (RegisterPayload.mk (Some "requester") None None None None None),
     requester);
    (AgentRegister
       (RegisterPayload.mk (Some "proposer") None
          (Some [CapInput.mk "x" (Some 1%Qc) None]) None None None),
     proposer);
    (MatchCreate (CreatePayload.mk (Some ["x"]) None None None None),
     Context.mk "R" 10);
    (MatchPropose (ProposePayload.mk "match-R-10" 1%Qc ["x"]),
     Context.mk "P" 11);
    (MatchAccept (AcceptPayload.mk "match-R-10" "P"), Context.mk "R" 12) ].

(** The view after the first, successful [match_accept]. *)
Definition accepted_view : State.t := replay commands.

Definition again : AcceptPayload.t := AcceptPayload.mk "match-R-10" "P".
Definition later : Context.t := Context.mk "R" 13.

End AcceptTwice.

(** A capability entry whose proficiency is the number 0. *)
Module ZeroProficiency.

Definition caps : list CapInput.t := [CapInput.mk "x" (Some 0%Qc) None].

Definition registration : RegisterPayload.t :=
  RegisterPayload.mk (Some "a") None (Some caps) None None None.

Definition update : UpdatePayload.t :=
  UpdatePayload.mk None (Some caps) None None.

Definition signer : Context.t := Context.mk "A" 1.

Definition registered : State.t :=
  deliver initial_state (AgentRegister registration, signer).

Definition updated : State.t :=
  deliver registered (AgentUpdate update, Context.mk "A" 2).

Definition stored (view : State.t) : option (list Qc) :=
  (λ a, Capability.proficiency <$> Agent.capabilities a)
    <$> obj_get "A" (State.agents view).

End ZeroProficiency.

(** One agent plays both parts of a match. *)
Module SelfRating.

Definition signer (t : Z) : Context.t := Context.mk "A" t.

Definition commands : list (Command * Context.t) :=
  [ (AgentRegister (RegisterPayload.mk (Some "a") None None None None None),
     signer 1);
    (MatchCreate (CreatePayload.mk (Some ["x"]) None None None None),
     signer 10);
    (MatchPropose (ProposePayload.mk "match-A-10" 1%Qc ["x"]), signer 11);
    (MatchAccept (AcceptPayload.mk "match-A-10" "A"), signer 12) ].

(** ["A"] has accepted its own proposal on its own request. *)
Definition accepted_view : State.t := replay commands.

Definition five : Qc := Q2Qc 5.

Definition rate : CompletePayload.t :=
  CompletePayload.mk "match-A-10" None (Some five) None.

End SelfRating.

(** Completions of the match of [AcceptTwice], with a rating of 5. *)
Module RateOnce.

Definition request : MatchRequest.t :=
  MatchRequest.mk "match-R-10" "R" ["x"] half "" [] 300010 10 "accepted"
    (Some "P") (Some 12) None None None None.

Definition rate : CompletePayload.t :=
  CompletePayload.mk "match-R-10" None (Some SelfRating.five) None.

Definition by_requester : Context.t := Context.mk "R" 13.

(** The view after the requester has completed the accepted match. *)
Definition completed_view : State.t :=
  deliver AcceptTwice.accepted_view (MatchComplete rate, by_requester).

Definition completed_request : MatchRequest.t :=
  MatchRequest.mk "match-R-10" "R" ["x"] half "" [] 300010 10 "completed"
    (Some "P") (Some 12) (Some 13) (Some true) (Some SelfRating.five) None.

(** A signer that never registered and is no party to the match. *)
Definition stranger (t : Z) : Context.t := Context.mk "S" t.

End RateOnce.

(** A request that is completed without ever having been accepted. *)
Module Unaccepted.

Definition commands : list (Command * Context.t) :=
  [ (AgentRegister
       (RegisterPayload.mk (Some "requester") None None None None None),
     Context.mk "R" 1);
    (MatchCreate (CreatePayload.mk (Some ["x"]) None None None None),
     Context.mk "R" 10) ].

(** A request that nobody proposed on, hence without [acceptedWith]. *)
Definition view : State.t := replay commands.

Definition once : State.t :=
  deliver view (MatchComplete RateOnce.rate, RateOnce.stranger 11).

End Unaccepted.

(** A registered signer registers a second time. *)
Module Reregister.

Definition signer (t : Z) : Context.t := Context.mk "A" t.

Definition first : RegisterPayload.t :=
  RegisterPayload.mk (Some "a") None
    (Some [CapInput.mk "x" (Some 1%Qc) None]) None None None.

(** The same signer registers again, under a new name and without
    capabilities. *)
Definition second : RegisterPayload.t :=
  RegisterPayload.mk (Some "b") None None None None None.

Definition first_view : State.t :=
  replay [(AgentRegister first, signer 1)].

Definition view : State.t :=
  replay [(AgentRegister first, signer 1); (AgentRegister second, signer 2)].

Definition agent : Agent.t :=
  Agent.mk "A" "b" "" [] "intercom" "public" None "online" 2 2 0 0.

End Reregister.

(** Two public agents and a query for two capabilities. *)
Module Ranking.

Definition commands : list (Command * Context.t) :=
  [ (AgentRegister
       (RegisterPayload.mk (Some "a") None
          (Some [CapInput.mk "x" (Some (Q2Qc (9 # 10))) None;
                 CapInput.mk "y" (Some (Q2Qc (3 # 10))) None])
          None None None),
     Context.mk "A" 1);
    (AgentRegister
       (RegisterPayload.mk (Some "b") None
          (Some [CapInput.mk "x" (Some 1%Qc) None]) None None None),
     Context.mk "B" 2) ].

Definition view : State.t := replay commands.

Definition query (minProficiency : option Qc) (limit : option Z)
    : DiscoverParams.t :=
  DiscoverParams.mk (Some ["x"; "y"]) None minProficiency None limit.

Definition found (params : DiscoverParams.t) : list string :=
  DiscoverEntry.id <$> DiscoverResult.agents (discover view params).

End Ranking.

(** A query that requests no capability. *)
Module Browse.

Definition everyone : DiscoverParams.t :=
  DiscoverParams.mk (Some []) None None None None.

Definition entry : DiscoverEntry.t :=
  DiscoverEntry.mk "A" "a" "" "online" "intercom"
    [Capability.mk "x" 1%Qc false None None] [] half None.

End Browse.

(** A session that goes through the whole life of a match: two agents
    register, one asks, the other proposes, the match is accepted and
    completed with a rating, both join a channel and a message is
    recorded. *)
Module Session.

Definition alice : string := "alice-key".
Definition bob : string := "bob-key".

Definition commands : list (Command * Context.t) :=
  [ (AgentRegister
       (RegisterPayload.mk (Some "alice") None None None None None),
     Context.mk alice 1);
    (AgentRegister
       (RegisterPayload.mk (Some "bob") None
          (Some [CapInput.mk "translate" (Some 1%Qc) None]) None None None),
     Context.mk bob 2);
    (MatchCreate (CreatePayload.mk (Some ["translate"]) None None None None),
     Context.mk alice 10);
    (MatchPropose (ProposePayload.mk "match-alice-ke-10" 1%Qc ["translate"]),
     Context.mk bob 11);
    (MatchAccept (AcceptPayload.mk "match-alice-ke-10" bob),
     Context.mk alice 12);
    (MatchComplete
       (CompletePayload.mk "match-alice-ke-10" (Some true) (Some (Qc_of_Z 5)) None),
     Context.mk alice 13);
    (ChannelJoin (ChannelPayload.mk "lobby"), Context.mk alice 14);
    (ChannelJoin (ChannelPayload.mk "lobby"), Context.mk bob 15);
    (MessageRecord, Context.mk alice 16) ].

Definition view : State.t := replay commands.

End Session.

(** The moment of the session at which the proposal is accepted. *)
Module Accepting.

Definition proposed : State.t := replay (take 4 Session.commands).
Definition payload : AcceptPayload.t :=
  AcceptPayload.mk "match-alice-ke-10" Session.bob.
Definition signer : Context.t := Context.mk Session.alice 12.
Definition accepted : State.t :=
  deliver proposed (MatchAccept payload, signer).

End Accepting.

(** A query on the view of the session for the one capability that is
    offered there. *)
Module Finding.

Definition query : DiscoverParams.t :=
  DiscoverParams.mk (Some ["translate"]) None None None None.

Definition found : list DiscoverEntry.t :=
  DiscoverResult.agents (discover (replay Session.commands) query).

(** The agent of bob once the session is over. *)
Definition bob : Agent.t :=
  Agent.mk Session.bob "bob" ""
    [Capability.mk "translate" 1%Qc false None None]
    "intercom" "public" None "online" 2 2 1 1.

End Finding.


(** The moment of the session at which bob proposes. *)
Module Proposing.

Definition created : State.t := replay (take 3 Session.commands).
Definition payload : ProposePayload.t :=
  ProposePayload.mk "match-alice-ke-10" 1%Qc ["translate"].
Definition signer : Context.t := Context.mk Session.bob 11.
Definition proposed : State.t :=
  deliver created (MatchPropose payload, signer).

End Proposing.

(** A newcomer registers on the view of the session. *)
Module Joining.

Definition payload : RegisterPayload.t :=
  RegisterPayload.mk (Some "carol") None None None None None.
Definition signer : Context.t := Context.mk "carol-key" 30.
Definition registered : State.t :=
  deliver (replay Session.commands) (AgentRegister payload, signer).

End Joining.

(** * Properties *)

(** ** Insertion-ordered objects *)

Section ObjLemmas.
Context {V : Type}.
Implicit Types (o : obj V) (k : string) (v : V).

Lemma obj_get_set_eq k v o : obj_get k (obj_set k v o) = Some v.
Proof.
  induction o as [|[k' v'] o IH]; simpl.
  - by rewrite bool_decide_eq_true_2.
  - destruct (bool_decide (k' = k)) eqn:E; simpl; rewrite E; [done | apply IH].
Qed.

Lemma obj_get_set_ne k k' v o :
  k ≠ k' → obj_get k' (obj_set k v o) = obj_get k' o.
Proof.
  intros Hne. induction o as [|[k0 v0] o IH]; simpl.
  - by rewrite bool_decide_eq_false_2.
  - destruct (bool_decide (k0 = k)) eqn:E; simpl.
    + apply bool_decide_eq_true_1 in E as ->.
      by rewrite bool_decide_eq_false_2.
    + by rewrite IH.
Qed.

Lemma obj_get_delete_eq k o : obj_get k (obj_delete k o) = None.
Proof.
  unfold obj_delete. induction o as [|[k' v'] o IH]; [done|].
  rewrite filter_cons. simpl. case_decide as Hk; [|done].
  simpl. by rewrite bool_decide_eq_false_2.
Qed.

Lemma obj_get_delete_ne k k' o :
  k ≠ k' → obj_get k' (obj_delete k o) = obj_get k' o.
Proof.
  intros Hne. unfold obj_delete. induction o as [|[k0 v0] o IH]; [done|].
  rewrite filter_cons. simpl. case_decide as Hk; simpl.
  - by rewrite IH.
  - subst. by rewrite bool_decide_eq_false_2.
Qed.

Lemma obj_get_Some_elem k v o : obj_get k o = Some v → (k, v) ∈ o.
Proof.
  induction o as [|[k' v'] o IH]; simpl; [done|].
  case_bool_decide as Hk; intros Hg.
  - injection Hg as ->. subst. apply list_elem_of_here.
  - apply list_elem_of_further. auto.
Qed.

Lemma obj_keys_set k v o :
  obj_keys (obj_set k v o)
  = if bool_decide (k ∈ obj_keys o) then obj_keys o else obj_keys o ++ [k].
Proof.
  unfold obj_keys. induction o as [|[k' v'] o IH]; [done|].
  cbn [obj_set].
  destruct (bool_decide (k' = k)) eqn:E; rewrite !fmap_cons; cbn [fst].
  - apply bool_decide_eq_true_1 in E as ->.
    rewrite bool_decide_eq_true_2; [done | apply list_elem_of_here].
  - apply bool_decide_eq_false_1 in E. rewrite IH.
    case_bool_decide as Hin.
    + rewrite bool_decide_eq_true_2; [done | by apply list_elem_of_further].
    + rewrite bool_decide_eq_false_2; [done|].
      intros [->|?]%elem_of_cons; done.
Qed.

End ObjLemmas.

(** ** Errors precede writes *)

Ltac handler_cases :=
  repeat (case_match; simplify_eq/=; try done); simplify_eq/=; try done.

Lemma throw_leaves_input (cmd : Command) (state : State.t)
    (context : Context.t) (e : Error) :
  completion (handlers cmd state context) = Throw e →
  input_after (handlers cmd state context) = state.
Proof.
  destruct cmd; simpl;
    unfold agent_register, agent_update, agent_unregister, match_create,
      match_propose, match_accept, match_complete, channel_join,
      channel_leave, message_record, throws;
    intros H; handler_cases.
Qed.

(** A handler that returns may well have written to the caller's object:
    [agent_register] stores the agent in the map it was given. *)
Lemma return_may_write_input :
  input_after
    (agent_register initial_state ZeroProficiency.registration
       ZeroProficiency.signer) ≠ initial_state.
Proof.
  intros H. apply (f_equal (λ s, length (State.agents s))) in H.
  vm_compute in H. discriminate.
Qed.

(** C3.  A handler that raises an error has written nothing: the view is
    the one it was given, and the host keeps it.  In particular a proposal
    on a request whose [expiresAt] lies before the command's timestamp
    fails with [RequestExpired], and the proposal map is untouched. *)
Theorem errors_precede_writes :
  (∀ (cmd : Command) (state : State.t) (context : Context.t) (e : Error),
     completion (handlers cmd state context) = Throw e →
     input_after (handlers cmd state context) = state
     ∧ deliver state (cmd, context) = state)
  ∧ (∀ (state : State.t) (payload : ProposePayload.t) (context : Context.t)
       (request : MatchRequest.t),
       State.matchRequests state !! ProposePayload.matchId payload
         = Some request →
       MatchRequest.expiresAt request < Context.timestamp context →
       match_propose state payload context
         = mkOutcome state (Throw RequestExpired)
       ∧ State.matchProposals (deliver state (MatchPropose payload, context))
         = State.matchProposals state).
Proof.
  split.
  - intros cmd state context e H. split.
    + by apply throw_leaves_input with e.
    + unfold deliver. simpl. rewrite H. by apply throw_leaves_input with e.
  - intros state payload context request Hreq Hexp.
    assert (match_propose state payload context
            = mkOutcome state (Throw RequestExpired)) as Hout.
    { unfold match_propose. rewrite Hreq.
      by rewrite bool_decide_eq_true_2. }
    split; [done|]. unfold deliver. simpl. by rewrite Hout.
Qed.

Lemma errors_precede_writes_witness :
  (input_after (handlers (MatchPropose Expiry.payload) Expiry.view Expiry.late)
     = Expiry.view
   ∧ deliver Expiry.view (MatchPropose Expiry.payload, Expiry.late)
     = Expiry.view)
  ∧ (match_propose Expiry.view Expiry.payload Expiry.late
       = mkOutcome Expiry.view (Throw RequestExpired)
     ∧ State.matchProposals
         (deliver Expiry.view (MatchPropose Expiry.payload, Expiry.late))
       = State.matchProposals Expiry.view).
Proof.
  split.
  - apply (proj1 errors_precede_writes (MatchPropose Expiry.payload)
             Expiry.view Expiry.late RequestExpired).
    reflexivity.
  - apply (proj2 errors_precede_writes Expiry.view Expiry.payload Expiry.late
             (MatchRequest.mk "match-R-0" "R" ["x"] half "" [] 60000 0
                "pending" None None None None None None)).
    + reflexivity.
    + simpl. lia.
Defined.

(** ** Creating a match request *)

(** C6 (as amended).  [match_create] throws exactly when the list of
    required capabilities is empty, and then with [EmptyCapabilitySet];
    otherwise it stores, under the derived id, a pending request that
    expires [ttl * 1000] after the command's timestamp ([ttl] is in
    seconds and defaults to 300, the timestamp is in milliseconds). *)
Theorem match_create_spec (state : State.t) (payload : CreatePayload.t)
    (context : Context.t) :
  let required := default [] (CreatePayload.requiredCapabilities payload) in
  let matchId :=
    "match-" +:+ str_slice8 (Context.writer context) +:+ "-"
      +:+ pretty (Context.timestamp context) in
  (completion (match_create state payload context) = Throw EmptyCapabilitySet
   ↔ required = [])
  ∧ (∀ e, completion (match_create state payload context) = Throw e →
          e = EmptyCapabilitySet)
  ∧ (required ≠ [] →
     ∃ newState request,
       match_create state payload context = mkOutcome state (Return newState)
       ∧ State.matchRequests newState !! matchId = Some request
       ∧ MatchRequest.requesterId request = Context.writer context
       ∧ MatchRequest.requiredCapabilities request = required
       ∧ MatchRequest.expiresAt request
         = Context.timestamp context
           + default 300 (CreatePayload.ttl payload) * 1000
       ∧ MatchRequest.status request = "pending").
Proof.
  intros required matchId. unfold match_create. fold required. fold matchId.
  destruct required as [|c required'] eqn:Hreq; simpl.
  - split; [done|]. split; [by intros e [= <-] | done].
  - split; [split; done|]. split; [done|]. intros _.
    eexists _, _. split; [done|]. simpl. rewrite lookup_insert_eq.
    split; [done|]. by simpl.
Qed.

(** The claim as first worded puts [expiresAt] at [timestamp + ttl]: with
    [ttl = 60] at timestamp 0 the request expires at 60000, not at 60. *)
Lemma match_create_expiry_counterexample :
  ∃ newState request,
    completion (match_create initial_state Expiry.create Expiry.requester)
      = Return newState
    ∧ State.matchRequests newState !! "match-R-0" = Some request
    ∧ MatchRequest.expiresAt request = 60000
    ∧ MatchRequest.expiresAt request ≠ Context.timestamp Expiry.requester + 60.
Proof.
  eexists _, _. split; [reflexivity|]. split; [reflexivity|]. by split.
Qed.

Lemma match_create_spec_witness :
  ∃ newState request,
    match_create initial_state Expiry.create Expiry.requester
      = mkOutcome initial_state (Return newState)
    ∧ State.matchRequests newState !! "match-R-0" = Some request
    ∧ MatchRequest.requesterId request = "R"
    ∧ MatchRequest.requiredCapabilities request = ["x"]
    ∧ MatchRequest.expiresAt request = 0 + 60 * 1000
    ∧ MatchRequest.status request = "pending".
Proof.
  apply (match_create_spec initial_state Expiry.create Expiry.requester). simpl. done.
Defined.

(** ** Accepting twice *)

(** No status check guards [match_accept]: whatever the status of the
    request, the requester naming an existing proposal gets a new view. *)
Lemma match_accept_ignores_status (state : State.t) (payload : AcceptPayload.t)
    (context : Context.t) (request : MatchRequest.t)
    (proposal : MatchProposal.t) :
  State.matchRequests state !! AcceptPayload.matchId payload = Some request →
  MatchRequest.requesterId request = Context.writer context →
  State.matchProposals state
    !! proposalKey (AcceptPayload.matchId payload)
                   (AcceptPayload.proposerId payload) = Some proposal →
  ∃ newState,
    match_accept state payload context = mkOutcome state (Return newState).
Proof.
  intros Hreq Hwho Hprop. unfold match_accept. rewrite Hreq, Hprop.
  rewrite bool_decide_eq_false_2 by (by intros ?). by eexists.
Qed.

(** C1 (the code departs from it).  On the view in which the request is
    already ['accepted'], the requester's second [match_accept] naming
    the same proposal does not fail with [RequestNotPending]: it returns
    a view in which both match counters have gone from 1 to 2. *)
Theorem second_accept_succeeds :
  MatchRequest.status
    <$> State.matchRequests AcceptTwice.accepted_view !! "match-R-10"
    = Some "accepted"
  ∧ Agent.matchCount <$> obj_get "R" (State.agents AcceptTwice.accepted_view)
    = Some 1
  ∧ Agent.matchCount <$> obj_get "P" (State.agents AcceptTwice.accepted_view)
    = Some 1
  ∧ ∃ newState,
      completion
        (match_accept AcceptTwice.accepted_view AcceptTwice.again
           AcceptTwice.later) = Return newState
      ∧ Agent.matchCount <$> obj_get "R" (State.agents newState) = Some 2
      ∧ Agent.matchCount <$> obj_get "P" (State.agents newState) = Some 2
      ∧ newState ≠ AcceptTwice.accepted_view.
Proof.
  split; [by vm_compute|]. split; [by vm_compute|]. split; [by vm_compute|].
  exists (deliver AcceptTwice.accepted_view
            (MatchAccept AcceptTwice.again, AcceptTwice.later)).
  split; [by vm_compute|]. split; [by vm_compute|]. split; [by vm_compute|].
  intros Heq.
  apply (f_equal (λ s, Agent.matchCount <$> obj_get "R" (State.agents s)))
    in Heq.
  vm_compute in Heq. discriminate.
Qed.

(** ** Proficiency on write *)

Lemma Math_max_spec (a b : Qc) :
  (a ≤ Math_max a b)%Qc ∧ (b ≤ Math_max a b)%Qc
  ∧ (Math_max a b = a ∨ Math_max a b = b).
Proof.
  unfold Math_max. case_decide as H.
  - split; [done|]. split; [reflexivity | by right].
  - split; [reflexivity|]. split; [|by left].
    apply Qclt_le_weak. by apply Qclt_nge.
Qed.

Lemma Math_min_spec (a b : Qc) :
  (Math_min a b ≤ a)%Qc ∧ (Math_min a b ≤ b)%Qc
  ∧ (Math_min a b = a ∨ Math_min a b = b).
Proof.
  unfold Math_min. case_decide as H.
  - split; [reflexivity|]. split; [done | by left].
  - split; [|split; [reflexivity | by right]].
    apply Qclt_le_weak. by apply Qclt_nge.
Qed.

(** What is stored always lies in [0,1], and it is the clamped input
    whenever the input is a number other than 0. *)
Lemma stored_proficiency_range (p : option Qc) :
  (0 ≤ stored_proficiency p)%Qc ∧ (stored_proficiency p ≤ 1)%Qc.
Proof.
  unfold stored_proficiency. split.
  - destruct (Math_min_spec 1 (Math_max 0 (or_num p half))) as (_ & _ & [->| ->]).
    + by vm_compute.
    + apply (Math_max_spec 0).
  - apply Math_min_spec.
Qed.

Lemma stored_proficiency_clamps (p : Qc) :
  p ≠ 0%Qc → stored_proficiency (Some p) = Math_min 1%Qc (Math_max 0%Qc p).
Proof.
  intros Hp. unfold stored_proficiency, or_num.
  by rewrite bool_decide_eq_false_2.
Qed.

(** C7 (the code departs from it).  A capability entry with proficiency 0
    is accepted by [agent_register] and by [agent_update], but what is
    stored is 0.5, whereas 0 clamped into [0,1] is 0: [cap.proficiency ||
    0.5] takes the number 0 for a missing value. *)
Theorem zero_proficiency_stored_as_half :
  Math_min 1%Qc (Math_max 0%Qc 0%Qc) = 0%Qc
  ∧ stored_proficiency (Some 0%Qc) = half
  ∧ half ≠ 0%Qc
  ∧ (∃ newState,
       completion
         (agent_register initial_state ZeroProficiency.registration
            ZeroProficiency.signer) = Return newState)
  ∧ ZeroProficiency.stored ZeroProficiency.registered = Some [half]
  ∧ (∃ newState,
       completion
         (agent_update ZeroProficiency.registered ZeroProficiency.update
            (Context.mk "A" 2)) = Return newState)
  ∧ ZeroProficiency.stored ZeroProficiency.updated = Some [half].
Proof.
  split; [by vm_compute|]. split; [by vm_compute|]. split; [by vm_compute|].
  split; [eexists; by vm_compute|]. split; [by vm_compute|].
  split; [eexists; by vm_compute|]. by vm_compute.
Qed.

(** Neither transition rejects a payload for its proficiency values:
    only the name checks, respectively the registration check, can fail. *)
Lemma agent_register_returns (state : State.t) (payload : RegisterPayload.t)
    (context : Context.t) (name : string) :
  RegisterPayload.name payload = Some name →
  name ≠ "" →
  (∀ a, a ∈ obj_values (State.agents state) → Agent.name a ≠ name) →
  ∃ newState, completion (agent_register state payload context) = Return newState.
Proof.
  intros Hname Hne Hfresh. unfold agent_register. rewrite Hname.
  rewrite bool_decide_eq_false_2 by done.
  destruct (List.find _ _) as [a|] eqn:Hfind; [|by eexists].
  apply List.find_some in Hfind as [Hin Heq]. apply list_elem_of_In in Hin.
  apply bool_decide_eq_true_1 in Heq. by destruct (Hfresh a Hin).
Qed.

Lemma agent_update_returns (state : State.t) (payload : UpdatePayload.t)
    (context : Context.t) :
  is_Some (obj_get (Context.writer context) (State.agents state)) →
  ∃ newState, completion (agent_update state payload context) = Return newState.
Proof.
  intros [a Ha]. unfold agent_update. rewrite Ha.
  destruct (UpdatePayload.capabilities payload); by eexists.
Qed.

(** ** Completing a match *)

Lemma ratings_sum_foldr (ratings : list Rating.t) :
  ratings_sum ratings = foldr Qcplus 0%Qc (Rating.rating <$> ratings).
Proof.
  unfold ratings_sum.
  assert (∀ acc, foldl (λ sum r, (sum + Rating.rating r)%Qc) acc ratings
                 = (acc + foldr Qcplus 0 (Rating.rating <$> ratings))%Qc) as H.
  { induction ratings as [|r rs IH]; intros acc; simpl.
    - by rewrite Qcplus_0_r.
    - rewrite IH. by rewrite Qcplus_assoc. }
  rewrite H. apply Qcplus_0_l.
Qed.

Section Complete.
Variables (state : State.t) (payload : CompletePayload.t) (context : Context.t).
Variable request : MatchRequest.t.
Hypothesis Hrequest :
  State.matchRequests state !! CompletePayload.matchId payload = Some request.

Let writer := Context.writer context.
Let matchId := CompletePayload.matchId payload.

(** With the request in the view, [match_complete] returns; the request
    it stores is ['completed'] and keeps its parties. *)
Lemma match_complete_returns :
  ∃ newState request',
    completion (match_complete state payload context) = Return newState
    ∧ State.matchRequests newState !! matchId = Some request'
    ∧ MatchRequest.status request' = "completed"
    ∧ MatchRequest.requesterId request' = MatchRequest.requesterId request
    ∧ MatchRequest.acceptedWith request' = MatchRequest.acceptedWith request.
Proof.
  unfold match_complete. rewrite Hrequest.
  destruct (CompletePayload.rating payload) as [r|];
    destruct (MatchRequest.acceptedWith request) as [p|] eqn:Hp; simpl;
    try destruct (bool_decide (r ≠ 0%Qc) && bool_decide (p ≠ ""));
    (eexists _, _; split; [reflexivity|]; simpl; rewrite lookup_insert_eq;
     split; [reflexivity|]; simpl; by rewrite ?Hp).
Qed.

Variables (r : Qc) (acceptedWith : string).
Hypothesis Hrating : CompletePayload.rating payload = Some r.
Hypothesis Hr : r ≠ 0%Qc.
Hypothesis Haccepted : MatchRequest.acceptedWith request = Some acceptedWith.
Hypothesis Hparty : acceptedWith ≠ "".

Let targetId := rated_party writer request acceptedWith.
Let before := default no_reputation (State.reputation state !! targetId).
Let record := Rating.mk r writer matchId (Context.timestamp context).

(** The rating branch, taken when the rating and the accepted party are
    both truthy. *)
Lemma match_complete_rated :
  ∃ newState after,
    completion (match_complete state payload context) = Return newState
    ∧ State.reputation newState !! targetId = Some after
    ∧ Reputation.ratings after = Reputation.ratings before ++ [record]
    ∧ Reputation.totalRatings after = Reputation.totalRatings before + 1
    ∧ Reputation.averageRating after
      = (ratings_sum (Reputation.ratings after)
         / Qc_of_Z (Reputation.totalRatings after))%Qc
    ∧ (∀ k, k ≠ targetId →
            State.reputation newState !! k = State.reputation state !! k)
    ∧ State.agents newState
      = if default true (CompletePayload.success payload) then
          match obj_get targetId (State.agents state) with
          | Some a =>
              obj_set targetId
                (Agent.with_successCount (Agent.successCount a + 1) a)
                (State.agents state)
          | None => State.agents state
          end
        else State.agents state.
Proof.
  unfold match_complete. rewrite Hrequest, Hrating, Haccepted.
  rewrite !bool_decide_eq_true_2 by done. simpl.
  eexists _, _. split; [reflexivity|]. simpl.
  split; [apply lookup_insert_eq|]. simpl.
  split; [done|]. split; [done|]. split; [done|].
  split; [|done]. intros k Hk. by rewrite lookup_insert_ne.
Qed.
End Complete.

(** ** Views reachable by replay *)

Lemma replay_ind (P : State.t → Prop) :
  P initial_state →
  (∀ view c, P view → P (deliver view c)) →
  ∀ cs, P (replay cs).
Proof.
  intros H0 Hstep cs. unfold replay.
  induction cs as [|c cs IH] using rev_ind; [done|].
  rewrite foldl_app. simpl. by apply Hstep.
Qed.

Ltac unfold_handlers :=
  unfold deliver, handlers, agent_register, agent_update, agent_unregister,
    match_create, match_propose, match_accept, match_complete, channel_join,
    channel_leave, message_record, throws in *.

(** ** Rating the counter-party *)







(** ** Completion is unguarded *)

(** C10 (as amended).  Once the request is in the view, [match_complete]
    raises no error whoever signs the command and whatever the status of
    the request: no authorisation and no terminal-state check is made,
    and the request ends ['completed'] with its parties kept.  Whenever
    the payload carries a non-zero rating and the request has a non-empty
    [acceptedWith], the call appends one more record to the ratings of the
    rated party, so that repeating it appends again. *)
Theorem match_complete_unguarded (state : State.t) (payload : CompletePayload.t)
    (context : Context.t) (request : MatchRequest.t) :
  State.matchRequests state !! CompletePayload.matchId payload = Some request →
  (∃ newState request',
     completion (match_complete state payload context) = Return newState
     ∧ State.matchRequests newState !! CompletePayload.matchId payload
       = Some request'
     ∧ MatchRequest.status request' = "completed"
     ∧ MatchRequest.requesterId request' = MatchRequest.requesterId request
     ∧ MatchRequest.acceptedWith request' = MatchRequest.acceptedWith request)
  ∧ (∀ (r : Qc) (acceptedWith : string),
       CompletePayload.rating payload = Some r →
       r ≠ 0%Qc →
       MatchRequest.acceptedWith request = Some acceptedWith →
       acceptedWith ≠ "" →
       let targetId :=
         rated_party (Context.writer context) request acceptedWith in
       ∃ newState after,
         completion (match_complete state payload context) = Return newState
         ∧ State.reputation newState !! targetId = Some after
         ∧ Reputation.ratings after
           = Reputation.ratings
               (default no_reputation (State.reputation state !! targetId))
             ++ [Rating.mk r (Context.writer context)
                   (CompletePayload.matchId payload)
                   (Context.timestamp context)]).
Proof.
  intros Hreq. split.
  - by apply match_complete_returns.
  - intros r acceptedWith Hrating Hr Hacc Hparty targetId.
    destruct (match_complete_rated state payload context request Hreq r
                acceptedWith Hrating Hr Hacc Hparty)
      as (newState & after & Hret & Hlook & Hratings & _).
    by exists newState, after.
Qed.

Lemma match_complete_unguarded_witness :
  obj_get "S" (State.agents RateOnce.completed_view) = None
  ∧ State.matchRequests RateOnce.completed_view !! "match-R-10"
    = Some RateOnce.completed_request
  ∧ ∃ newState after,
      completion
        (match_complete RateOnce.completed_view RateOnce.rate
           (RateOnce.stranger 14)) = Return newState
      ∧ State.reputation newState !! "R" = Some after
      ∧ Reputation.ratings after
        = [Rating.mk SelfRating.five "S" "match-R-10" 14].
Proof.
  split; [by vm_compute|]. split; [by vm_compute|].
  apply (proj2 (match_complete_unguarded RateOnce.completed_view RateOnce.rate
                  (RateOnce.stranger 14) RateOnce.completed_request
                  ltac:(by vm_compute))
           SelfRating.five "P").
  - reflexivity.
  - by vm_compute.
  - reflexivity.
  - by vm_compute.
Defined.

(** The claim as first worded lets every repeated completion with a
    rating append a record: on a request that was never accepted, it
    appends none, however often it is repeated. *)
Lemma unaccepted_completion_counterexample :
  completion
    (match_complete Unaccepted.view RateOnce.rate (RateOnce.stranger 11))
    = Return Unaccepted.once
  ∧ State.reputation Unaccepted.once = ∅
  ∧ ∃ newState,
      completion
        (match_complete Unaccepted.once RateOnce.rate (RateOnce.stranger 12))
        = Return newState
      ∧ State.reputation newState = ∅.
Proof.
  split; [by vm_compute|]. split; [by vm_compute|].
  eexists. split; by vm_compute.
Qed.

(** ** Index and capability lists *)

Lemma elem_of_splice_first_ne (x y : string) (arr : list string) :
  y ≠ x → y ∈ splice_first x arr ↔ y ∈ arr.
Proof.
  intros Hne. induction arr as [|z arr IH]; [done|]. simpl.
  case_bool_decide as Hz.
  - subst. rewrite elem_of_cons. intuition congruence.
  - rewrite !elem_of_cons, IH. done.
Qed.

Lemma elem_of_splice_first (x y : string) (arr : list string) :
  y ∈ splice_first x arr → y ∈ arr.
Proof.
  induction arr as [|z arr IH]; [done|]. simpl. case_bool_decide.
  - apply list_elem_of_further.
  - rewrite !elem_of_cons. intuition auto.
Qed.

Lemma NoDup_splice_first (x : string) (arr : list string) :
  NoDup arr → NoDup (splice_first x arr) ∧ x ∉ splice_first x arr.
Proof.
  induction arr as [|z arr IH]; [by split; [|apply not_elem_of_nil]|].
  intros [Hz Hnd]%NoDup_cons. simpl. case_bool_decide as Heq.
  - subst. done.
  - destruct (IH Hnd) as [IH1 IH2]. split.
    + apply NoDup_cons. split; [|done]. intros Hin.
      by apply Hz, elem_of_splice_first with x.
    + apply not_elem_of_cons. by split; [congruence|].
Qed.

Section IndexLemmas.
Variable agentId : string.
Implicit Types (index : gmap string (list string)) (names : list string).

Lemma index_add_lookup index capName c :
  default [] (index_add agentId index capName !! c)
  = if decide (c = capName)
    then set_add (default [] (index !! c)) agentId
    else default [] (index !! c).
Proof.
  unfold index_add, set_add, includes. case_decide as Hc.
  - subst c. destruct (index !! capName) as [arr|] eqn:Harr; simpl.
    + rewrite Harr. case_bool_decide; simpl.
      * by rewrite Harr.
      * by rewrite lookup_insert_eq.
    + rewrite lookup_insert_eq. simpl. by rewrite lookup_insert_eq.
  - destruct (index !! capName) as [arr|] eqn:Harr; simpl.
    + rewrite Harr. case_bool_decide; [done|]. by rewrite lookup_insert_ne.
    + rewrite lookup_insert_eq. simpl. by rewrite !lookup_insert_ne.
Qed.

Lemma index_remove_lookup index capName c :
  default [] (index_remove agentId index capName !! c)
  = if decide (c = capName)
    then splice_first agentId (default [] (index !! c))
    else default [] (index !! c).
Proof.
  unfold index_remove. case_decide as Hc.
  - subst c. rewrite lookup_alter_eq. by destruct (index !! capName).
  - by rewrite lookup_alter_ne.
Qed.

Lemma elem_of_index_add_all index names c x :
  x ∈ default [] (index_add_all agentId index names !! c)
  ↔ x ∈ default [] (index !! c) ∨ (x = agentId ∧ c ∈ names).
Proof.
  unfold index_add_all. revert index.
  induction names as [|n names IH]; intros index; simpl.
  - rewrite elem_of_nil. intuition auto.
  - rewrite IH, index_add_lookup, elem_of_cons. unfold set_add, includes.
    case_decide as Hc; [subst c; case_bool_decide|];
      rewrite ?elem_of_app, ?list_elem_of_singleton;
      intuition (subst; auto; congruence).
Qed.

Lemma NoDup_index_add_all index names :
  (∀ c, NoDup (default [] (index !! c))) →
  ∀ c, NoDup (default [] (index_add_all agentId index names !! c)).
Proof.
  unfold index_add_all. revert index.
  induction names as [|n names IH]; intros index Hnd; simpl; [done|].
  apply IH. intros c. rewrite index_add_lookup. unfold set_add, includes.
  case_decide; [case_bool_decide|]; try done.
  apply NoDup_app. split; [done|]. split; [|apply NoDup_singleton].
  intros y Hy ->%list_elem_of_singleton. done.
Qed.

Lemma NoDup_index_remove_all index names :
  (∀ c, NoDup (default [] (index !! c))) →
  ∀ c, NoDup (default [] (index_remove_all agentId index names !! c)).
Proof.
  unfold index_remove_all. revert index.
  induction names as [|n names IH]; intros index Hnd; simpl; [done|].
  apply IH. intros c. rewrite index_remove_lookup.
  case_decide; [|done]. by apply NoDup_splice_first.
Qed.

Lemma elem_of_index_remove_all_ne index names c x :
  x ≠ agentId →
  x ∈ default [] (index_remove_all agentId index names !! c)
  ↔ x ∈ default [] (index !! c).
Proof.
  intros Hne. unfold index_remove_all. revert index.
  induction names as [|n names IH]; intros index; simpl; [done|].
  rewrite IH, index_remove_lookup. case_decide; [|done].
  by apply elem_of_splice_first_ne.
Qed.

Lemma elem_of_index_remove_all index names c x :
  x ∈ default [] (index_remove_all agentId index names !! c) →
  x ∈ default [] (index !! c).
Proof.
  unfold index_remove_all. revert index.
  induction names as [|n names IH]; intros index; simpl; [done|].
  intros H%IH. rewrite index_remove_lookup in H.
  case_decide; [|done]. by apply elem_of_splice_first with agentId.
Qed.

Lemma index_remove_all_listed index names c :
  NoDup (default [] (index !! c)) →
  c ∈ names →
  agentId ∉ default [] (index_remove_all agentId index names !! c).
Proof.
  unfold index_remove_all. revert index.
  induction names as [|n names IH]; intros index Hnd Hin.
  - by apply elem_of_nil in Hin.
  - simpl. apply elem_of_cons in Hin.
    destruct (decide (c = n)) as [->|Hcn].
    + intros Hx%elem_of_index_remove_all. revert Hx.
      rewrite index_remove_lookup. rewrite decide_True by done.
      by apply NoDup_splice_first.
    + apply IH; [|by destruct Hin].
      rewrite index_remove_lookup. by rewrite decide_False.
Qed.
End IndexLemmas.

(** ** Well-formed agent maps *)

Lemma agents_wf_obj_set (k : string) (a : Agent.t) (o : obj Agent.t) :
  Agent.id a = k → agents_wf_obj o → agents_wf_obj (obj_set k a o).
Proof.
  intros Hid [Hnd Hids]. split.
  - rewrite obj_keys_set. case_bool_decide as Hin; [done|].
    apply NoDup_app. split; [done|]. split; [|apply NoDup_singleton].
    by intros y Hy ->%list_elem_of_singleton.
  - intros k' a'. destruct (decide (k = k')) as [<-|Hne].
    + rewrite obj_get_set_eq. intros Heq. injection Heq as <-. exact Hid.
    + rewrite obj_get_set_ne by done. apply Hids.
Qed.

Lemma agents_wf_obj_delete (k : string) (o : obj Agent.t) :
  agents_wf_obj o → agents_wf_obj (obj_delete k o).
Proof.
  intros [Hnd Hids]. split.
  - clear Hids. unfold obj_keys, obj_delete in *.
    induction o as [|[k0 a0] o IH]; [done|].
    rewrite fmap_cons in Hnd. apply NoDup_cons in Hnd as [Hk0 Hnd].
    rewrite filter_cons. case_decide; [|by apply IH].
    rewrite fmap_cons. apply NoDup_cons. split; [|by apply IH].
    intros Hin. apply Hk0. apply list_elem_of_fmap in Hin as (p & -> & Hp).
    apply list_elem_of_filter in Hp as [_ Hp].
    apply list_elem_of_fmap. by exists p.
  - intros k' a'. destruct (decide (k = k')) as [<-|Hne].
    + by rewrite obj_get_delete_eq.
    + rewrite obj_get_delete_ne by done. apply Hids.
Qed.

Lemma deliver_agents_wf (view : State.t) (c : Command * Context.t) :
  agents_wf view → agents_wf (deliver view c).
Proof.
  unfold agents_wf. intros Hwf. pose proof Hwf as [_ Hids].
  destruct c as [cmd ctx].
  destruct cmd; unfold_handlers; cbn [fst snd];
    handler_cases; cbn [State.agents]; try done;
    repeat first
      [ apply agents_wf_obj_delete
      | apply agents_wf_obj_set; [by simpl; auto|] ];
    done.
Qed.

Lemma replay_agents_wf (cs : list (Command * Context.t)) :
  agents_wf (replay cs).
Proof.
  apply replay_ind; [|apply deliver_agents_wf].
  split; [apply NoDup_nil_2 | done].
Qed.

(** ** Index entries hold no duplicates *)

(** A command changes the index only by splicing the writer out of some
    entries and then pushing it onto some. *)
Lemma deliver_index (view : State.t) (c : Command * Context.t) :
  ∃ removed added,
    State.capabilityIndex (deliver view c)
    = index_add_all (Context.writer c.2)
        (index_remove_all (Context.writer c.2)
           (State.capabilityIndex view) removed)
        added.
Proof.
  destruct c as [cmd ctx].
  destruct cmd; unfold_handlers; cbn [fst snd];
    handler_cases; cbn [State.capabilityIndex];
    try (by exists [], []).
  - by eexists [], _.
  - by eexists _, _.
  - by eexists _, [].
Qed.

Lemma deliver_index_nodup (view : State.t) (c : Command * Context.t) :
  index_nodup view → index_nodup (deliver view c).
Proof.
  intros Hnd capName. unfold index_entry.
  destruct (deliver_index view c) as (removed & added & ->).
  by apply NoDup_index_add_all, NoDup_index_remove_all.
Qed.

Lemma replay_index_nodup (cs : list (Command * Context.t)) :
  index_nodup (replay cs).
Proof.
  apply replay_ind; [|apply deliver_index_nodup].
  intros capName. unfold index_entry, initial_state. simpl.
  rewrite lookup_empty. apply NoDup_nil_2.
Qed.

(** ** The index invariant and the transitions that keep it *)

Lemma index_exact_consistent (state : State.t) :
  agents_wf state → index_exact state → index_consistent state.
Proof.
  intros [_ Hids] Hexact agentId agent capName Hget.
  rewrite (Hids _ _ Hget), (Hexact agentId capName).
  unfold names_of. rewrite Hget. simpl.
  split; [by intros (names & [= <-] & ?) | by exists (Agent.names agent)].
Qed.

Lemma names_of_set_eq (k : string) (a : Agent.t) (o : obj Agent.t) :
  names_of (obj_set k a o) k = Some (Agent.names a).
Proof. unfold names_of. by rewrite obj_get_set_eq. Qed.

Lemma names_of_set_ne (k x : string) (a : Agent.t) (o : obj Agent.t) :
  k ≠ x → names_of (obj_set k a o) x = names_of o x.
Proof. intros Hne. unfold names_of. by rewrite obj_get_set_ne. Qed.

(** Replacing an agent by one with the same capability list changes no
    name. *)
Lemma names_of_set_same (k x : string) (a : Agent.t) (o : obj Agent.t) :
  names_of o k = Some (Agent.names a) → names_of (obj_set k a o) x = names_of o x.
Proof.
  intros Hk. destruct (decide (k = x)) as [<-|Hne].
  - by rewrite names_of_set_eq.
  - by apply names_of_set_ne.
Qed.

Lemma names_stored (f : CapInput.t → Capability.t) (caps : list CapInput.t) :
  (∀ cap, Capability.name (f cap) = CapInput.name cap) →
  Capability.name <$> (f <$> caps) = CapInput.name <$> caps.
Proof.
  intros Hf. rewrite <-list_fmap_compose. apply list_fmap_ext.
  intros _ cap _. apply Hf.
Qed.

Section KeepsIndex.
Variable view : State.t.
Hypothesis Hnodup : index_nodup view.
Hypothesis Hexact : index_exact view.

(** Once its listed names are spliced out, the writer is in no entry. *)
Lemma writer_spliced_out (writer : string) (agent : Agent.t) (capName : string) :
  obj_get writer (State.agents view) = Some agent →
  writer ∉ default []
             (index_remove_all writer (State.capabilityIndex view)
                               (Agent.names agent) !! capName).
Proof.
  intros Hget Hin.
  assert (capName ∈ Agent.names agent) as Hlisted.
  { apply elem_of_index_remove_all in Hin.
    apply Hexact in Hin as (names & Hnames & Hc).
    unfold names_of in Hnames. rewrite Hget in Hnames. by injection Hnames as <-. }
  revert Hin. apply index_remove_all_listed; [apply Hnodup | done].
Qed.

Lemma agent_unregister_keeps_index (context : Context.t) :
  index_exact (deliver view (AgentUnregister, context)).
Proof.
  unfold deliver, handlers, agent_unregister. cbn [fst snd].
  destruct (obj_get _ _) as [agent|] eqn:Hget; [|exact Hexact].
  intros x capName. unfold index_entry, names_of. simpl.
  destruct (decide (x = Context.writer context)) as [->|Hne].
  - rewrite obj_get_delete_eq. split.
    + intros Hin. by apply writer_spliced_out in Hin.
    + by intros (names & [=] & _).
  - rewrite obj_get_delete_ne by done.
    rewrite elem_of_index_remove_all_ne by done. apply Hexact.
Qed.

Lemma agent_update_keeps_index (payload : UpdatePayload.t)
    (context : Context.t) :
  index_exact (deliver view (AgentUpdate payload, context)).
Proof.
  unfold deliver, handlers, agent_update. cbn [fst snd].
  destruct (obj_get _ _) as [agent|] eqn:Hget; [|exact Hexact].
  intros x capName. unfold index_entry.
  destruct (UpdatePayload.capabilities payload) as [caps|]; simpl.
  - rewrite elem_of_index_add_all.
    destruct (decide (x = Context.writer context)) as [->|Hne].
    + rewrite names_of_set_eq. unfold Agent.names. simpl.
      rewrite names_stored by done. split.
      * intros [Hin|[_ Hin]]; [by apply writer_spliced_out in Hin|].
        by eexists.
      * intros (names & [= <-] & Hin). by right.
    + rewrite names_of_set_ne by done.
      rewrite elem_of_index_remove_all_ne by done.
      rewrite <-(Hexact x capName). unfold index_entry.
      split; [by intros [?|[? _]] | by left].
  - rewrite names_of_set_same; [apply Hexact|].
    unfold names_of. by rewrite Hget.
Qed.

(** Registration keeps the index exact when the signer is new. *)
Lemma agent_register_keeps_index (payload : RegisterPayload.t)
    (context : Context.t) :
  obj_get (Context.writer context) (State.agents view) = None →
  index_exact (deliver view (AgentRegister payload, context)).
Proof.
  intros Hnew. unfold deliver, handlers, agent_register, throws. cbn [fst snd].
  destruct (RegisterPayload.name payload) as [name|]; [|exact Hexact].
  destruct (bool_decide (name = "")); [exact Hexact|].
  destruct (List.find _ _); [exact Hexact|].
  intros x capName. unfold index_entry. simpl.
  rewrite elem_of_index_add_all.
  destruct (decide (x = Context.writer context)) as [->|Hne].
  - rewrite names_of_set_eq. unfold Agent.names. simpl.
    rewrite names_stored by done. split.
    + intros [Hin|[_ Hin]]; [|by eexists].
      apply Hexact in Hin as (names & Hnames & _).
      unfold names_of in Hnames. by rewrite Hnew in Hnames.
    + intros (names & [= <-] & Hin). by right.
  - rewrite names_of_set_ne by done. rewrite <-(Hexact x capName).
    unfold index_entry. split; [by intros [?|[? _]] | by left].
Qed.

(** The remaining commands touch neither the index nor any capability
    list. *)
Lemma other_commands_keep_index (cmd : Command) (context : Context.t) :
  match cmd with
  | AgentRegister _ | AgentUpdate _ | AgentUnregister => False
  | _ => True
  end →
  index_exact (deliver view (cmd, context)).
Proof.
  assert (∀ agents',
    (∀ x, names_of agents' x = names_of (State.agents view) x) →
    ∀ x capName,
      x ∈ default [] (State.capabilityIndex view !! capName)
      ↔ ∃ names, names_of agents' x = Some names ∧ capName ∈ names) as Hsame.
  { intros agents' Hnames x capName. rewrite Hnames. apply Hexact. }
  assert (∀ k a n, obj_get k (State.agents view) = Some a →
            names_of (State.agents view) k
            = Some (Agent.names (Agent.with_matchCount n a))) as Hmc.
  { intros k a n Hk. unfold names_of. by rewrite Hk. }
  assert (∀ k a n, obj_get k (State.agents view) = Some a →
            names_of (State.agents view) k
            = Some (Agent.names (Agent.with_successCount n a))) as Hsc.
  { intros k a n Hk. unfold names_of. by rewrite Hk. }
  destruct cmd; try done; intros _; unfold_handlers; cbn [fst snd];
    handler_cases; try exact Hexact;
    intros x capName; unfold index_entry;
    cbn [State.capabilityIndex State.agents];
    apply Hsame; clear x capName; intros x;
    rewrite ?names_of_set_same; try done;
    rewrite ?names_of_set_same; auto.
Qed.
End KeepsIndex.

Lemma deliver_keeps_index (view : State.t) (c : Command * Context.t) :
  index_nodup view →
  index_exact view →
  (∀ payload, c.1 = AgentRegister payload →
              obj_get (Context.writer c.2) (State.agents view) = None) →
  index_exact (deliver view c).
Proof.
  intros Hnodup Hexact Hnew. destruct c as [cmd context].
  destruct cmd; try (by apply other_commands_keep_index).
  - apply agent_register_keeps_index; [done|]. by apply (Hnew payload).
  - by apply agent_update_keeps_index.
  - by apply agent_unregister_keeps_index.
Qed.

(** On such a history the index and the capability lists agree after
    every command, registrations, updates and unregistrations included. *)
Lemma replay_index_consistent (cs : list (Command * Context.t)) :
  registers_once cs → index_consistent (replay cs).
Proof.
  intros Honce. apply index_exact_consistent; [apply replay_agents_wf|].
  induction cs as [|c cs IH] using rev_ind.
  - intros x capName. unfold index_entry, names_of, replay. simpl.
    rewrite lookup_empty. simpl. split; [by intros ?%elem_of_nil|].
    by intros (names & [=] & _).
  - unfold replay. rewrite foldl_app. simpl. fold (replay cs).
    apply deliver_keeps_index; [apply replay_index_nodup| |].
    + apply IH. intros before payload context after ->.
      apply (Honce before payload context (after ++ [c])).
      by rewrite <-app_assoc.
    + intros payload Hc. destruct c as [cmd context]. simpl in *. subst cmd.
      by apply (Honce cs payload context []).
Qed.

(** With an exact, duplicate-free index, unregistering clears the signer
    from every index entry. *)
Lemma agent_unregister_clears_index (view : State.t) (context : Context.t)
    (capName : string) :
  index_nodup view →
  index_exact view →
  is_Some (obj_get (Context.writer context) (State.agents view)) →
  Context.writer context
    ∉ index_entry (deliver view (AgentUnregister, context)) capName.
Proof.
  intros Hnodup Hexact [agent Hget] Hin.
  apply (agent_unregister_keeps_index view Hnodup Hexact context) in Hin
    as (names & Hnames & _).
  revert Hnames. unfold deliver, handlers, agent_unregister, names_of.
  cbn [fst snd]. rewrite Hget. simpl. by rewrite obj_get_delete_eq.
Qed.

(** ** Unregistering *)

Section Unregister.
Variables (state : State.t) (context : Context.t) (agent : Agent.t).
Let writer := Context.writer context.
Hypothesis Hregistered : obj_get writer (State.agents state) = Some agent.

(** What [agent_unregister] does for a registered signer: the agent is
    gone and the counter is one less; the signer's id leaves the index
    entry of every capability the agent lists, other ids stay; match
    requests, proposals, channel members and reputations are the same
    maps as before. *)
Lemma agent_unregister_spec :
  ∃ newState,
    completion (agent_unregister state context) = Return newState
    ∧ obj_get writer (State.agents newState) = None
    ∧ (∀ k, k ≠ writer →
            obj_get k (State.agents newState) = obj_get k (State.agents state))
    ∧ Stats.totalAgents (State.stats newState)
      = Stats.totalAgents (State.stats state) - 1
    ∧ State.matchRequests newState = State.matchRequests state
    ∧ State.matchProposals newState = State.matchProposals state
    ∧ State.channelMembers newState = State.channelMembers state
    ∧ State.reputation newState = State.reputation state
    ∧ (∀ c x, x ≠ writer →
              x ∈ index_entry newState c ↔ x ∈ index_entry state c)
    ∧ (∀ c, NoDup (index_entry state c) → c ∈ Agent.names agent →
            writer ∉ index_entry newState c)
    ∧ (∀ c, writer ∉ index_entry state c → writer ∉ index_entry newState c).
Proof.
  unfold agent_unregister. fold writer. rewrite Hregistered.
  eexists. split; [reflexivity|]. cbn [State.agents State.stats
    State.matchRequests State.matchProposals State.channelMembers
    State.reputation Stats.totalAgents].
  split; [apply obj_get_delete_eq|].
  split; [by intros k Hk; apply obj_get_delete_ne|].
  do 5 (split; [done|]). unfold index_entry. cbn [State.capabilityIndex].
  split; [by intros c x Hx; apply elem_of_index_remove_all_ne|].
  split; [by intros c Hnd Hc; apply index_remove_all_listed|].
  intros c Hc Hin. apply Hc. by apply elem_of_index_remove_all in Hin.
Qed.
End Unregister.

(** ** Registering twice *)

(** C2 (the code departs from it).  After one registration the index and
    the agent's list agree.  [agent_register] has no check that the signer
    is new: the second registration by the same signer succeeds, replaces
    the agent and leaves the old index entry behind, so that the agent's
    id is listed under ["x"] although the agent no longer lists ["x"]. *)
Theorem reregistration_breaks_index :
  index_consistent Reregister.first_view
  ∧ completion
      (agent_register Reregister.first_view Reregister.second
         (Reregister.signer 2)) = Return Reregister.view
  ∧ obj_get "A" (State.agents Reregister.view) = Some Reregister.agent
  ∧ Agent.id Reregister.agent ∈ index_entry Reregister.view "x"
  ∧ ("x" ∉ Agent.names Reregister.agent)
  ∧ Stats.totalAgents (State.stats Reregister.view) = 2
  ∧ length (State.agents Reregister.view) = 1%nat
  ∧ ¬ index_consistent Reregister.view.
Proof.
  assert (obj_get "A" (State.agents Reregister.view) = Some Reregister.agent)
    as Hget by (by vm_compute).
  assert (Agent.id Reregister.agent ∈ index_entry Reregister.view "x") as Hin.
  { replace (index_entry Reregister.view "x") with ["A"] by (by vm_compute).
    apply list_elem_of_here. }
  assert ("x" ∉ Agent.names Reregister.agent) as Hnot
    by apply not_elem_of_nil.
  split.
  { intros agentId agent capName.
    replace (State.agents Reregister.first_view)
      with [("A", Agent.mk "A" "a" ""
                    [Capability.mk "x" 1%Qc false None None]
                    "intercom" "public" None "online" 1 1 0 0)]
      by (by vm_compute).
    unfold index_entry.
    replace (State.capabilityIndex Reregister.first_view)
      with ({["x" := ["A"]]} : gmap string (list string))
      by (by vm_compute).
    simpl. case_bool_decide; [|done]. intros [= <-]. unfold Agent.names.
    simpl. rewrite list_elem_of_singleton.
    destruct (decide (capName = "x")) as [->|Hne].
    - rewrite lookup_singleton_eq. simpl. by rewrite list_elem_of_singleton.
    - rewrite lookup_singleton_ne by done. simpl.
      split; [by intros ?%elem_of_nil | done]. }
  split; [by vm_compute|]. split; [done|]. split; [done|]. split; [done|].
  split; [by vm_compute|]. split; [by vm_compute|].
  intros Hcons. by apply Hnot, (Hcons "A" Reregister.agent "x" Hget).
Qed.

(** C9 (the code departs from it).  On the view left by the double
    registration the signer is registered; [agent_unregister] removes the
    agent and decrements the counter, but it splices the signer only out
    of the entries named in the agent's present list, so the id stays in
    the index entry ["x"]. *)
Theorem unregister_leaves_stale_entry :
  obj_get "A" (State.agents Reregister.view) = Some Reregister.agent
  ∧ ∃ newState,
      completion (agent_unregister Reregister.view (Reregister.signer 3))
      = Return newState
      ∧ obj_get "A" (State.agents newState) = None
      ∧ State.agents newState = []
      ∧ Stats.totalAgents (State.stats newState) = 1
      ∧ index_entry newState "x" = ["A"]
      ∧ "A" ∈ index_entry newState "x".
Proof.
  split; [by vm_compute|]. eexists. split; [by vm_compute|].
  split; [by vm_compute|]. split; [by vm_compute|]. split; [by vm_compute|].
  split; [by vm_compute|].
  replace (index_entry _ "x") with ["A"] by (by vm_compute).
  apply list_elem_of_here.
Qed.

(** ** Discovery *)

Lemma sort_insert_perm (x : DiscoverEntry.t) (l : list DiscoverEntry.t) :
  sort_insert x l ≡ₚ x :: l.
Proof.
  induction l as [|y l IH]; simpl; [done|].
  case_decide; [done|]. rewrite IH. apply Permutation_swap.
Qed.

Lemma sort_by_score_perm (l : list DiscoverEntry.t) : sort_by_score l ≡ₚ l.
Proof.
  unfold sort_by_score. induction l as [|x l IH]; simpl; [done|].
  by rewrite sort_insert_perm, IH.
Qed.

(** Equal scores keep their order. *)
Lemma sort_by_score_constant (q : Qc) (l : list DiscoverEntry.t) :
  (∀ e, e ∈ l → DiscoverEntry.matchScore e = q) → sort_by_score l = l.
Proof.
  unfold sort_by_score. induction l as [|x l IH]; intros Hq; simpl; [done|].
  rewrite IH by (intros e He; apply Hq; by apply list_elem_of_further).
  destruct l as [|y l]; simpl; [done|].
  rewrite decide_True; [done|].
  rewrite (Hq x), (Hq y); [reflexivity| |apply list_elem_of_here].
  apply list_elem_of_further, list_elem_of_here.
Qed.

Lemma elem_of_slice0 {A} (n : Z) (l : list A) (x : A) :
  x ∈ slice0 n l → x ∈ l.
Proof.
  unfold slice0. case_decide; intros (i & Hi & _)%elem_of_take;
    by apply list_elem_of_lookup_2 with i.
Qed.

Lemma slice0_all {A} (n : Z) (l : list A) :
  Z.of_nat (length l) ≤ n → slice0 n l = l.
Proof.
  intros Hn. unfold slice0. rewrite decide_True by lia.
  apply take_ge. lia.
Qed.

Section Scoring.
Variables (capabilities : list string) (minProficiency : Qc).

Lemma score_capabilities_matched (caps : list Capability.t) :
  (score_capabilities capabilities minProficiency caps).1
  = Capability.name
      <$> filter (λ cap, counts capabilities minProficiency cap = true) caps.
Proof.
  unfold score_capabilities.
  assert (∀ acc,
    (foldl (λ acc cap,
              if counts capabilities minProficiency cap
              then (acc.1 ++ [Capability.name cap],
                    (acc.2 + Capability.proficiency cap)%Qc)
              else acc) acc caps).1
    = acc.1
      ++ (Capability.name
            <$> filter (λ cap, counts capabilities minProficiency cap = true)
                       caps))
    as H; [|apply H].
  induction caps as [|cap caps IH]; intros acc; simpl.
  - by rewrite app_nil_r.
  - rewrite IH, filter_cons.
    destruct (counts capabilities minProficiency cap) eqn:Hc; simpl.
    + by rewrite <-app_assoc.
    + done.
Qed.

Lemma score_capabilities_nil_requested (caps : list Capability.t) :
  capabilities = [] →
  score_capabilities capabilities minProficiency caps = ([], 0%Qc).
Proof.
  intros ->. unfold score_capabilities.
  induction caps as [|cap caps IH]; [done|]. exact IH.
Qed.
End Scoring.

Lemma counts_mono (capabilities : list string) (m1 m2 : Qc)
    (cap : Capability.t) :
  (m1 ≤ m2)%Qc → counts capabilities m2 cap = true →
  counts capabilities m1 cap = true.
Proof.
  unfold counts. intros Hle [Hinc Hm2%bool_decide_eq_true_1]%andb_true_iff.
  rewrite Hinc. simpl. apply bool_decide_eq_true_2.
  by apply Qcle_trans with m2.
Qed.

(** A candidate that survives the higher threshold survives the lower
    one, as the same agent. *)
Lemma discover_entry_mono (state : State.t) (capabilities : list string)
    (m1 m2 : Qc) (status : option string) (agentId : string)
    (e2 : DiscoverEntry.t) :
  (m1 ≤ m2)%Qc →
  discover_entry state capabilities m2 status agentId = Some e2 →
  ∃ e1, discover_entry state capabilities m1 status agentId = Some e1
        ∧ DiscoverEntry.id e1 = DiscoverEntry.id e2.
Proof.
  intros Hle. unfold discover_entry.
  destruct (obj_get agentId (State.agents state)) as [agent|]; [|done].
  destruct (negb (is_public agent)); [done|].
  destruct (truthy_str status && _); [done|].
  pose proof (score_capabilities_matched capabilities m1
                (Agent.capabilities agent)) as H1.
  pose proof (score_capabilities_matched capabilities m2
                (Agent.capabilities agent)) as H2.
  destruct (score_capabilities capabilities m1 _) as [matched1 total1].
  destruct (score_capabilities capabilities m2 _) as [matched2 total2].
  simpl in H1, H2.
  destruct (bool_decide (0 < length matched2)%nat
            || bool_decide (length capabilities = 0%nat)) eqn:Hkeep;
    [|done].
  intros [= <-]. simpl.
  assert (bool_decide (0 < length matched1)%nat
          || bool_decide (length capabilities = 0%nat) = true) as ->;
    [|by eexists].
  apply orb_true_iff in Hkeep as [Hm%bool_decide_eq_true_1|Hc];
    [|by rewrite Hc, orb_true_r].
  apply orb_true_iff. left. apply bool_decide_eq_true_2.
  subst matched1 matched2. rewrite length_fmap in *.
  destruct (filter _ (Agent.capabilities agent)) as [|cap rest] eqn:Hf;
    [simpl in Hm; lia|].
  assert (cap ∈ filter (λ cap, counts capabilities m1 cap = true)
                       (Agent.capabilities agent)) as Hin.
  { assert (cap ∈ cap :: rest) as Hc by apply list_elem_of_here.
    rewrite <-Hf in Hc. apply list_elem_of_filter in Hc as [Hc ?].
    apply list_elem_of_filter. split; [|done]. by apply counts_mono with m2. }
  destruct Hin; simpl; lia.
Qed.

Lemma omap_length_mono {A B} (f g : A → option B) (l : list A) :
  (∀ x, is_Some (f x) → is_Some (g x)) →
  (length (omap f l) ≤ length (omap g l))%nat.
Proof.
  intros Hfg. induction l as [|x l IH]; simpl; [done|]. unfold omap in IH.
  destruct (f x) eqn:Hf.
  - destruct (Hfg x) as [y ->]; [by rewrite Hf|]. simpl. lia.
  - destruct (g x); simpl; lia.
Qed.

(** C8 (as amended).  For a fixed view and a fixed query, raising
    [minProficiency] never adds an agent to the result before it is cut
    to [limit]: every agent found with the higher threshold is found with
    the lower one, so [total] does not grow; and the returned page for the
    higher threshold lies within the page for the lower one whenever the
    latter is not cut short. *)
Theorem discover_monotone (state : State.t)
    (capabilities categories : option (list string))
    (status : option string) (limit : option Z) (m1 m2 : option Qc) :
  (default 0 m1 ≤ default 0 m2)%Qc →
  let low :=
    discover state
      (DiscoverParams.mk capabilities categories m1 status limit) in
  let high :=
    discover state
      (DiscoverParams.mk capabilities categories m2 status limit) in
  (∀ e2,
     e2 ∈ discover_results state (default [] capabilities) (default 0%Qc m2)
            status →
     ∃ e1,
       e1 ∈ discover_results state (default [] capabilities)
              (default 0%Qc m1) status
       ∧ DiscoverEntry.id e1 = DiscoverEntry.id e2)
  ∧ (DiscoverResult.total high ≤ DiscoverResult.total low)%nat
  ∧ (Z.of_nat (DiscoverResult.total low) ≤ default 20 limit →
     ∀ e2, e2 ∈ DiscoverResult.agents high →
           ∃ e1, e1 ∈ DiscoverResult.agents low
                 ∧ DiscoverEntry.id e1 = DiscoverEntry.id e2).
Proof.
  intros Hle low high.
  assert (∀ e2,
     e2 ∈ discover_results state (default [] capabilities) (default 0%Qc m2)
            status →
     ∃ e1,
       e1 ∈ discover_results state (default [] capabilities)
              (default 0%Qc m1) status
       ∧ DiscoverEntry.id e1 = DiscoverEntry.id e2) as Hall.
  { intros e2. unfold discover_results.
    intros (agentId & Hid & He2)%list_elem_of_omap.
    destruct (discover_entry_mono _ _ _ _ _ _ _ Hle He2) as (e1 & He1 & Heq).
    exists e1. split; [|done]. apply list_elem_of_omap. by exists agentId. }
  split; [exact Hall|]. subst low high. unfold discover. simpl. split.
  - rewrite !sort_by_score_perm. apply omap_length_mono.
    intros agentId [e2 He2].
    destruct (discover_entry_mono _ _ _ _ _ _ _ Hle He2) as (e1 & He1 & _).
    by exists e1.
  - intros Hlimit e2 He2%elem_of_slice0. rewrite sort_by_score_perm in He2.
    destruct (Hall e2 He2) as (e1 & He1 & Heq). exists e1. split; [|done].
    rewrite slice0_all by done. by rewrite sort_by_score_perm.
Qed.

(** The claim as first worded compares the returned sets: with [limit]
    1, agent ["A"] (scores 0.6, then 0.45) is returned for threshold 0
    and agent ["B"] (score 0.5 both times) for threshold 0.5. *)
Lemma discover_truncation_counterexample :
  (0 ≤ half)%Qc
  ∧ Ranking.found (Ranking.query (Some 0%Qc) (Some 1)) = ["A"]
  ∧ Ranking.found (Ranking.query (Some half) (Some 1)) = ["B"]
  ∧ ¬ (∀ x, x ∈ Ranking.found (Ranking.query (Some half) (Some 1)) →
            x ∈ Ranking.found (Ranking.query (Some 0%Qc) (Some 1))).
Proof.
  assert (Ranking.found (Ranking.query (Some 0%Qc) (Some 1)) = ["A"]) as Hlow
    by (by vm_compute).
  assert (Ranking.found (Ranking.query (Some half) (Some 1)) = ["B"]) as Hhigh
    by (by vm_compute).
  split; [by vm_compute|]. split; [done|]. split; [done|].
  rewrite Hlow, Hhigh. intros H.
  specialize (H "B" (list_elem_of_here _ _)).
  by apply list_elem_of_singleton in H.
Qed.

Lemma discover_monotone_witness :
  (DiscoverResult.total (discover Ranking.view (Ranking.query (Some half) None))
   ≤ DiscoverResult.total
       (discover Ranking.view (Ranking.query (Some 0%Qc) None)))%nat
  ∧ ∀ e2,
      e2 ∈ DiscoverResult.agents
             (discover Ranking.view (Ranking.query (Some half) None)) →
      ∃ e1,
        e1 ∈ DiscoverResult.agents
               (discover Ranking.view (Ranking.query (Some 0%Qc) None))
        ∧ DiscoverEntry.id e1 = DiscoverEntry.id e2.
Proof.
  destruct (discover_monotone Ranking.view (Some ["x"; "y"]) None None None
              (Some 0%Qc) (Some half)) as (_ & Htotal & Hpage).
  - by vm_compute.
  - split; [exact Htotal|]. apply Hpage. by vm_compute.
Defined.

(** *** Browsing with no capability requested *)

Lemma foldl_set_add_fresh (acc l : list string) :
  NoDup (acc ++ l) → foldl set_add acc l = acc ++ l.
Proof.
  revert acc. induction l as [|x l IH]; intros acc Hnd; simpl.
  - by rewrite app_nil_r.
  - replace (acc ++ x :: l) with ((acc ++ [x]) ++ l) in *
      by (by rewrite <-app_assoc).
    unfold set_add at 2, includes. rewrite bool_decide_eq_false_2.
    + by apply IH.
    + apply NoDup_app in Hnd as (Hnd & _ & _).
      apply NoDup_app in Hnd as (_ & Hx & _).
      intros Hin. by apply (Hx x Hin), list_elem_of_here.
Qed.

Lemma agents_wf_obj_tail (k : string) (a : Agent.t) (o : obj Agent.t) :
  agents_wf_obj ((k, a) :: o) →
  Agent.id a = k ∧ (k ∉ obj_keys o) ∧ agents_wf_obj o.
Proof.
  intros [Hnd Hids]. unfold obj_keys in *. rewrite fmap_cons in Hnd.
  apply NoDup_cons in Hnd as [Hk Hnd]. split; [|split; [done|split; [done|]]].
  - apply Hids. simpl. by rewrite bool_decide_eq_true_2.
  - intros k' a' Hget. apply Hids. simpl.
    rewrite bool_decide_eq_false_2; [done|].
    intros ->. apply Hk. apply obj_get_Some_elem in Hget.
    apply list_elem_of_fmap. by exists (k', a').
Qed.

Lemma agents_wf_obj_ids (o : obj Agent.t) :
  agents_wf_obj o → Agent.id <$> obj_values o = obj_keys o.
Proof.
  unfold obj_values, obj_keys. induction o as [|[k a] o IH]; [done|].
  intros (Hid & _ & Hwf)%agents_wf_obj_tail.
  rewrite !fmap_cons. simpl. by rewrite Hid, IH.
Qed.

Lemma agents_wf_obj_get (o : obj Agent.t) (a : Agent.t) :
  agents_wf_obj o → a ∈ obj_values o → obj_get (Agent.id a) o = Some a.
Proof.
  unfold obj_values. induction o as [|[k a0] o IH]; [by intros _ ?%elem_of_nil|].
  intros Hwf. pose proof Hwf as (Hid & Hk & Hwf')%agents_wf_obj_tail.
  rewrite fmap_cons. intros [->|Hin]%elem_of_cons; simpl in *.
  - by rewrite bool_decide_eq_true_2.
  - rewrite bool_decide_eq_false_2; [by apply IH|].
    intros ->. apply Hk. rewrite <-(agents_wf_obj_ids o Hwf').
    by apply list_elem_of_fmap_2.
Qed.

Lemma discover_entry_browse (state : State.t) (m : Qc)
    (status : option string) (a : Agent.t) :
  agents_wf state →
  a ∈ obj_values (State.agents state) →
  is_public a = true →
  discover_entry state [] m status (Agent.id a)
  = if passes_filters status a then Some (browse_entry state a) else None.
Proof.
  intros Hwf Hin Hpub. unfold discover_entry, passes_filters.
  rewrite (agents_wf_obj_get _ _ Hwf Hin), Hpub. simpl.
  destruct (truthy_str status && _); [done|]. simpl.
  by rewrite score_capabilities_nil_requested.
Qed.

Lemma discover_results_browse (state : State.t) (m : Qc)
    (status : option string) :
  agents_wf state →
  discover_results state [] m status
  = browse_entry state
      <$> filter (λ a, passes_filters status a = true)
                 (obj_values (State.agents state)).
Proof.
  intros Hwf. unfold discover_results, matchingAgentIds. simpl.
  rewrite foldl_set_add_fresh.
  2:{ simpl. apply sublist_NoDup with (obj_keys (State.agents state));
        [apply Hwf|].
      rewrite <-(agents_wf_obj_ids _ Hwf). apply fmap_sublist, sublist_filter. }
  simpl.
  assert (∀ l : list Agent.t,
    (∀ a, a ∈ l → a ∈ obj_values (State.agents state)) →
    omap (discover_entry state [] m status)
         (Agent.id <$> filter (λ a, is_public a = true) l)
    = browse_entry state <$> filter (λ a, passes_filters status a = true) l)
    as H; [|by apply H].
  induction l as [|a l IH]; intros Hl; [done|].
  assert (∀ a', a' ∈ l → a' ∈ obj_values (State.agents state)) as Hl'
    by (intros a' Ha'; apply Hl; by apply list_elem_of_further).
  rewrite !filter_cons. destruct (is_public a) eqn:Hpub.
  - rewrite decide_True by done. rewrite fmap_cons.
    change (omap ?f (?x :: ?l))
      with (match f x with Some y => y :: omap f l | None => omap f l end).
    rewrite discover_entry_browse; [|done|apply Hl, list_elem_of_here|done].
    rewrite IH by done.
    destruct (passes_filters status a) eqn:Hp.
    + by rewrite decide_True.
    + by rewrite decide_False.
  - rewrite decide_False by done.
    rewrite decide_False; [by apply IH|].
    unfold passes_filters. by rewrite Hpub.
Qed.

Lemma passes_filters_spec (status : option string) (a : Agent.t) :
  passes_filters status a = true
  ↔ Agent.visibility a = "public"
    ∧ ∀ s, status = Some s → s ≠ "" → Agent.status a = s.
Proof.
  unfold passes_filters, is_public, truthy_str.
  rewrite andb_true_iff, bool_decide_eq_true, negb_true_iff.
  destruct status as [s|]; simpl.
  - rewrite andb_false_iff, !bool_decide_eq_false. split.
    + intros [Hpub Hs]. split; [done|]. intros s' [= <-] Hne.
      destruct Hs as [Hs|Hs]; [by destruct Hs|].
      apply dec_stable in Hs. congruence.
    + intros [Hpub Hs]. split; [done|].
      destruct (decide (s = "")) as [->|Hne]; [left; by intros ?|].
      right. intros Hneq. apply Hneq. f_equal. by apply Hs.
  - split; [|by intros [? _]]. intros [Hpub _]. by split.
Qed.

(** C4 (as amended).  On a view reached by replay, [discover] with an
    empty capabilities list returns the public agents, in the order of the
    agent map, less those that fail the optional status filter, cut to
    [limit]; each returned agent carries match score 0.5 and no matched
    capability, whatever capabilities it lists. *)
Theorem discover_without_capabilities (state : State.t)
    (params : DiscoverParams.t) :
  agents_wf state →
  default [] (DiscoverParams.capabilities params) = [] →
  let status := DiscoverParams.status params in
  let eligible :=
    filter (λ a, passes_filters status a = true)
           (obj_values (State.agents state)) in
  discover state params
  = DiscoverResult.mk
      (slice0 (default 20 (DiscoverParams.limit params))
              (browse_entry state <$> eligible))
      (length eligible)
  ∧ (∀ e, e ∈ DiscoverResult.agents (discover state params) →
          DiscoverEntry.matchScore e = half
          ∧ DiscoverEntry.matchedCapabilities e = [])
  ∧ (∀ a, a ∈ eligible
          ↔ a ∈ obj_values (State.agents state)
            ∧ Agent.visibility a = "public"
            ∧ ∀ s, status = Some s → s ≠ "" → Agent.status a = s).
Proof.
  intros Hwf Hcaps status eligible.
  assert (discover state params
          = DiscoverResult.mk
              (slice0 (default 20 (DiscoverParams.limit params))
                      (browse_entry state <$> eligible))
              (length eligible)) as Heq.
  { unfold discover. rewrite Hcaps, discover_results_browse by done.
    fold status. fold eligible.
    rewrite (sort_by_score_constant half).
    - by rewrite length_fmap.
    - by intros e (a & -> & _)%list_elem_of_fmap. }
  split; [done|]. split.
  - rewrite Heq. simpl.
    by intros e (a & -> & _)%elem_of_slice0%list_elem_of_fmap.
  - intros a. subst eligible. rewrite list_elem_of_filter, passes_filters_spec.
    tauto.
Qed.

(** The claim as first worded promises score 1: the one public agent of
    the view is returned with score 0.5. *)
Lemma discover_score_counterexample :
  DiscoverResult.agents (discover Reregister.first_view Browse.everyone)
  = [Browse.entry]
  ∧ DiscoverEntry.matchScore Browse.entry = half
  ∧ DiscoverEntry.matchScore Browse.entry ≠ 1%Qc.
Proof.
  split; [by vm_compute|]. split; [done|]. by vm_compute.
Qed.

Lemma discover_without_capabilities_witness :
  discover Ranking.view Browse.everyone
  = DiscoverResult.mk
      (slice0 20
         (browse_entry Ranking.view
            <$> filter (λ a, passes_filters None a = true)
                       (obj_values (State.agents Ranking.view))))
      (length (filter (λ a, passes_filters None a = true)
                      (obj_values (State.agents Ranking.view))))
  ∧ ∀ e, e ∈ DiscoverResult.agents (discover Ranking.view Browse.everyone) →
         DiscoverEntry.matchScore e = half
         ∧ DiscoverEntry.matchedCapabilities e = [].
Proof.
  destruct (discover_without_capabilities Ranking.view Browse.everyone)
    as (Heq & Hscore & _).
  - apply replay_agents_wf.
  - reflexivity.
  - split; [exact Heq | exact Hscore].
Defined.

(** * Further properties of the contract and of the readers *)

(** ** Values of an insertion-ordered object *)

Section ObjValues.
Context {V : Type}.
Implicit Types (o : obj V) (k : string) (v : V).

Lemma obj_get_Some_value k v o : obj_get k o = Some v → v ∈ obj_values o.
Proof.
  intros H%obj_get_Some_elem. unfold obj_values.
  apply list_elem_of_fmap. by exists (k, v).
Qed.

Lemma obj_values_set_elem k v v' o :
  v' ∈ obj_values (obj_set k v o) → v' = v ∨ v' ∈ obj_values o.
Proof.
  unfold obj_values. induction o as [|[k0 v0] o IH]; cbn [obj_set].
  - rewrite list_fmap_singleton, list_elem_of_singleton. by left.
  - destruct (bool_decide (k0 = k)); rewrite !fmap_cons, !elem_of_cons; simpl.
    + intros [->|?]; [by left | by right; right].
    + intros [->|?]; [by right; left|]. destruct IH as [->|?]; auto.
Qed.

Lemma obj_values_delete_elem k v' o :
  v' ∈ obj_values (obj_delete k o) → v' ∈ obj_values o.
Proof.
  unfold obj_values, obj_delete.
  intros (p & -> & [_ Hp]%list_elem_of_filter)%list_elem_of_fmap.
  by apply list_elem_of_fmap_2.
Qed.

(** Writing, under a key that is present, a value with the same image
    under [f] leaves the images of all values as they were. *)
Lemma obj_values_set_same {B} (f : V → B) k v v0 o :
  obj_get k o = Some v0 → f v = f v0 →
  f <$> obj_values (obj_set k v o) = f <$> obj_values o.
Proof.
  unfold obj_values. induction o as [|[k1 v1] o IH]; [done|].
  cbn [obj_set obj_get]. destruct (bool_decide (k1 = k)).
  - intros [= ->] Hf. rewrite !fmap_cons. simpl. by rewrite Hf.
  - intros Hget Hf. rewrite !fmap_cons. simpl. by rewrite IH.
Qed.

Lemma obj_values_set_fresh k v o :
  obj_get k o = None → obj_values (obj_set k v o) = obj_values o ++ [v].
Proof.
  unfold obj_values. induction o as [|[k1 v1] o IH]; [done|].
  cbn [obj_set obj_get]. destruct (bool_decide (k1 = k)); [done|].
  intros Hget. rewrite !fmap_cons. simpl. by rewrite IH.
Qed.
End ObjValues.

Ltac split_values :=
  repeat match goal with
  | H : _ ∈ obj_values (obj_set _ _ _) |- _ =>
      apply obj_values_set_elem in H as [->|H]
  | H : _ ∈ obj_values (obj_delete _ _) |- _ =>
      apply obj_values_delete_elem in H
  end.

Lemma clamp_range (q : Qc) :
  (0 ≤ Math_min 1 (Math_max 0 q))%Qc ∧ (Math_min 1 (Math_max 0 q) ≤ 1)%Qc.
Proof.
  split.
  - destruct (Math_min_spec 1 (Math_max 0 q)) as (_ & _ & [->| ->]).
    + by vm_compute.
    + apply (Math_max_spec 0).
  - apply Math_min_spec.
Qed.

(** ** What every stored agent satisfies *)

Lemma stored_caps_range (f : CapInput.t → Capability.t) (caps : list CapInput.t) :
  (∀ cap, Capability.proficiency (f cap)
          = stored_proficiency (CapInput.proficiency cap)) →
  Forall (λ cap, (0 ≤ Capability.proficiency cap)%Qc
                 ∧ (Capability.proficiency cap ≤ 1)%Qc) (f <$> caps).
Proof.
  intros Hf. apply Forall_fmap, Forall_forall. intros cap _. simpl.
  rewrite Hf. apply stored_proficiency_range.
Qed.

Ltac unpack_decisions :=
  repeat match goal with
  | H : bool_decide _ = false |- _ => apply bool_decide_eq_false_1 in H
  | H : bool_decide _ = true |- _ => apply bool_decide_eq_true_1 in H
  | H : includes _ _ = true |- _ => apply bool_decide_eq_true_1 in H
  | H : includes _ _ = false |- _ => apply bool_decide_eq_false_1 in H
  end.

Ltac agent_ok_tac :=
  unpack_decisions; unfold agent_ok in *; simpl; repeat split;
  first [ assumption | lia
        | by apply stored_caps_range
        | by repeat constructor
        | done ].

Lemma deliver_agents_ok (view : State.t) (c : Command * Context.t) :
  Forall agent_ok (obj_values (State.agents view)) →
  Forall agent_ok (obj_values (State.agents (deliver view c))).
Proof.
  rewrite !Forall_forall. intros Hok a' Hin.
  assert (∀ k a, obj_get k (State.agents view) = Some a → agent_ok a) as Hget
    by (intros k a Hk; by apply Hok, obj_get_Some_value with k).
  destruct c as [cmd ctx].
  destruct cmd; unfold_handlers; cbn [fst snd] in Hin;
    handler_cases; cbn [State.agents] in Hin; split_values;
    try (by apply Hok).
  all: repeat match goal with
    | H : obj_get _ (State.agents _) = Some _ |- _ =>
        apply Hget in H; destruct H as (? & ? & ? & ? & ?)
    end.
  all: agent_ok_tac.
Qed.

Lemma replay_snoc (cs : list (Command * Context.t)) (c : Command * Context.t) :
  replay (cs ++ [c]) = deliver (replay cs) c.
Proof. unfold replay. by rewrite foldl_app. Qed.

(** ** Plain histories keep the view plain *)

(** On a plain history every capability name that a stored agent lists
    names nothing inherited, so that the index lookups of
    [agent_update] and [agent_unregister] are lookups of own keys. *)
Lemma deliver_stored_names_own (view : State.t) (c : Command * Context.t) :
  plain_command c →
  Forall (λ a, Forall own_name (Agent.names a))
         (obj_values (State.agents view)) →
  Forall (λ a, Forall own_name (Agent.names a))
         (obj_values (State.agents (deliver view c))).
Proof.
  intros [_ Hkeys]. rewrite !Forall_forall. intros Hok a' Hin.
  assert (∀ k a, obj_get k (State.agents view) = Some a →
                 Forall own_name (Agent.names a)) as Hget
    by (intros k a Hk; by apply Hok, obj_get_Some_value with k).
  destruct c as [cmd ctx].
  destruct cmd; unfold_handlers; cbn [fst snd payload_keys] in *;
    handler_cases; cbn [State.agents] in Hin; split_values;
    try (by apply Hok).
  all: repeat match goal with
    | H : obj_get _ (State.agents _) = Some _ |- _ => apply Hget in H
    end.
  all: unfold Agent.names in *; simpl in *; try done.
  all: rewrite <-list_fmap_compose; exact Hkeys.
Qed.

Lemma replay_stored_names_own (cs : list (Command * Context.t)) :
  plain_history cs →
  Forall (λ a, Forall own_name (Agent.names a))
         (obj_values (State.agents (replay cs))).
Proof.
  induction cs as [|c cs IH] using rev_ind; intros Hplain.
  - apply Forall_nil_2.
  - apply Forall_app in Hplain as [Hcs Hc].
    rewrite replay_snoc. apply deliver_stored_names_own; [|by apply IH].
    by eapply Forall_inv.
Qed.

Lemma own_name_checked (s : string) :
  bool_decide (own_name s) = true → own_name s.
Proof. apply bool_decide_eq_true_1. Qed.

Lemma session_is_plain : plain_history Session.commands.
Proof.
  apply (bool_decide_eq_true_1 (plain_history Session.commands)).
  by vm_compute.
Qed.

(** X1.  In every view reached by replay, every stored agent has a
    non-empty name, one of the statuses online, offline and busy,
    counters that are not negative, and proficiencies within [0,1]. *)
Theorem replay_agents_ok (cs : list (Command * Context.t)) :
  Forall agent_ok (obj_values (State.agents (replay cs))).
Proof.
  apply (replay_ind (λ view, Forall agent_ok (obj_values (State.agents view)))).
  - apply Forall_nil_2.
  - intros view c. apply deliver_agents_ok.
Qed.


(** ** Agent names stay unique *)

Lemma NoDup_obj_set_fresh_image {V B} (f : V → B) (k : string) (v : V)
    (o : obj V) :
  NoDup (f <$> obj_values o) →
  f v ∉ f <$> obj_values o →
  NoDup (f <$> obj_values (obj_set k v o)).
Proof.
  unfold obj_values. induction o as [|[k0 v0] o IH]; cbn [obj_set].
  - intros _ _. simpl. apply NoDup_singleton.
  - rewrite !fmap_cons. simpl. intros [Hv0 Hnd]%NoDup_cons [Hne Hv]%not_elem_of_cons.
    destruct (bool_decide (k0 = k)); rewrite !fmap_cons; simpl.
    + by apply NoDup_cons.
    + apply NoDup_cons. split; [|by apply IH].
      intros (v' & Heq & Hin)%list_elem_of_fmap.
      apply (obj_values_set_elem k v v' o) in Hin as [->|Hin]; [done|].
      apply Hv0. rewrite Heq. by apply list_elem_of_fmap_2.
Qed.

Lemma NoDup_obj_delete_image {V B} (f : V → B) (k : string) (o : obj V) :
  NoDup (f <$> obj_values o) → NoDup (f <$> obj_values (obj_delete k o)).
Proof.
  intros Hnd. apply sublist_NoDup with (f <$> obj_values o); [done|].
  unfold obj_values, obj_delete. apply fmap_sublist, fmap_sublist, sublist_filter.
Qed.

Lemma find_name_None (name : string) (agents : list Agent.t) :
  List.find (λ a, bool_decide (Agent.name a = name)) agents = None →
  name ∉ Agent.name <$> agents.
Proof.
  intros Hfind (a & -> & Hin)%list_elem_of_fmap.
  apply list_elem_of_In in Hin.
  pose proof (List.find_none _ _ Hfind a Hin) as Hf. simpl in Hf.
  by apply bool_decide_eq_false_1 in Hf.
Qed.

(** The counters of an agent can change without its name changing. *)
Lemma names_after_counts (agents : obj Agent.t) (k : string) (a a' : Agent.t) :
  obj_get k agents = Some a → Agent.name a' = Agent.name a →
  Agent.name <$> obj_values (obj_set k a' agents)
  = Agent.name <$> obj_values agents.
Proof. intros. by apply obj_values_set_same with a. Qed.

Lemma deliver_names (view : State.t) (c : Command * Context.t) :
  NoDup (Agent.name <$> obj_values (State.agents view)) →
  NoDup (Agent.name <$> obj_values (State.agents (deliver view c))).
Proof.
  intros Hnd. destruct c as [cmd ctx].
  destruct cmd; unfold_handlers; cbn [fst snd];
    handler_cases; cbn [State.agents]; try done.
  all: try (by apply NoDup_obj_delete_image).
  all: try (apply NoDup_obj_set_fresh_image; [done|]; simpl;
            by apply find_name_None).
  all: try (by erewrite names_after_counts by (eassumption || done)).
  destruct (decide (Context.writer ctx = AcceptPayload.proposerId payload))
    as [Heq|Hne].
  - rewrite <- Heq in *. simplify_eq.
    erewrite names_after_counts; [| apply obj_get_set_eq | done].
    by erewrite names_after_counts by (eassumption || done).
  - erewrite names_after_counts;
      [| rewrite obj_get_set_ne by done; eassumption | done].
    by erewrite names_after_counts by (eassumption || done).
Qed.

(** X2.  In every view reached by replay no two stored agents carry the
    same name: [agent_register] rejects a name that any stored agent
    has (the signer's own previous entry included), and no other
    handler writes a name. *)
Theorem replay_names_unique (cs : list (Command * Context.t)) :
  NoDup (Agent.name <$> obj_values (State.agents (replay cs))).
Proof.
  induction cs as [|c cs IH] using rev_ind.
  - apply NoDup_nil_2.
  - rewrite replay_snoc. by apply deliver_names.
Qed.

(** ** Match requests and proposals *)

Lemma deliver_proposals_ok (view : State.t) (c : Command * Context.t) :
  proposals_ok view → proposals_ok (deliver view c).
Proof.
  intros Hok key p Hlook. destruct c as [cmd ctx].
  destruct cmd; unfold_handlers; cbn [fst snd] in *;
    handler_cases; cbn [State.matchProposals State.matchRequests] in *;
    try (by apply Hok).
  all: try (rewrite lookup_insert in Hlook; case_decide; simplify_eq/=).
  all: repeat match goal with
    | H : State.matchProposals _ !! _ = Some _ |- _ =>
        apply Hok in H; destruct H as [(? & ? & ? & ?) ?]
    end.
  all: split; [|try (rewrite lookup_insert; destruct (decide _)); by eauto].
  all: unfold proposal_ok; simpl; repeat split; try done.
  all: try apply clamp_range; by repeat constructor.
Qed.

(** X3.  In every view reached by replay each stored proposal sits under
    the key made of its match id and its proposer, has a score within
    [0,1] and the status proposed or accepted (a proposal that was not
    chosen stays proposed), and names a match request that is stored. *)
Theorem replay_proposals_ok (cs : list (Command * Context.t)) :
  proposals_ok (replay cs).
Proof.
  apply replay_ind; [|apply deliver_proposals_ok].
  intros key p. unfold initial_state. simpl. by rewrite lookup_empty.
Qed.

Lemma deliver_requests_ok (view : State.t) (c : Command * Context.t) :
  requests_ok view → requests_ok (deliver view c).
Proof.
  intros Hok key r Hlook. destruct c as [cmd ctx].
  destruct cmd; unfold_handlers; cbn [fst snd] in *;
    handler_cases; cbn [State.matchRequests] in *;
    try (by apply Hok).
  all: rewrite lookup_insert in Hlook; destruct (decide _);
    simplify_eq/=; try (by apply Hok).
  all: unpack_decisions.
  all: repeat match goal with
    | H : State.matchRequests _ !! _ = Some _ |- _ =>
        apply Hok in H; destruct H as (? & ? & ? & ? & ? & ? & ?)
    end.
  all: unfold request_ok; simpl; repeat split; try done; eauto.
  all: try (by repeat constructor).
  intros Hnil. by rewrite Hnil in *.
Qed.

(** X4.  In every view reached by replaying a history whose keys name
    nothing inherited from [Object.prototype], each stored match request
    carries its own key as id, the key is built from the first eight
    characters of the requester and the creation timestamp, the list of
    required capabilities is not empty, and the status is one of
    pending, accepted and completed: a request that has expired stays
    pending.  A pending request has neither an
    accepted party nor a completion time, an accepted one has an
    accepted party, a completed one has a completion time and an
    outcome. *)
Theorem replay_requests_ok (cs : list (Command * Context.t)) :
  plain_history cs → requests_ok (replay cs).
Proof.
  intros _. apply replay_ind; [|apply deliver_requests_ok].
  unfold requests_ok, initial_state. simpl. apply map_Forall_empty.
Qed.

Lemma replay_requests_ok_witness :
  plain_history Session.commands ∧ requests_ok (replay Session.commands).
Proof.
  split; [apply session_is_plain|].
  apply (replay_requests_ok Session.commands), session_is_plain.
Defined.

(** ** Reputation records *)

Lemma arithmetic_mean_ratings (ratings : list Rating.t) (n : Z) :
  n = Z.of_nat (length ratings) →
  (ratings_sum ratings / Qc_of_Z n)%Qc
  = arithmetic_mean (Rating.rating <$> ratings).
Proof.
  intros ->. unfold arithmetic_mean.
  by rewrite ratings_sum_foldr, length_fmap.
Qed.

Lemma deliver_reputation_ok (view : State.t) (c : Command * Context.t) :
  map_Forall (λ _, reputation_ok) (State.reputation view) →
  map_Forall (λ _, reputation_ok) (State.reputation (deliver view c)).
Proof.
  intros Hok key rep Hlook. destruct c as [cmd ctx].
  destruct cmd; unfold_handlers; cbn [fst snd] in *;
    handler_cases; cbn [State.reputation] in *;
    try (by apply (Hok key)).
  all: rewrite lookup_insert in Hlook; destruct (decide _);
    simplify_eq/=; try (by apply (Hok key)).
  all: apply andb_true_iff in H3 as [Hq _]; apply bool_decide_eq_true_1 in Hq.
  all: match goal with
    | |- context [default ?d (?m !! ?k)] =>
        assert (Reputation.totalRatings (default d (m !! k))
                = Z.of_nat (length (Reputation.ratings (default d (m !! k))))
                ∧ Forall (λ r, Rating.rating r ≠ 0%Qc)
                    (Reputation.ratings (default d (m !! k))))
          as [Hlen Hnz]
          by (destruct (m !! k) as [rep0|] eqn:Hrep0;
              simpl; [by apply Hok in Hrep0 as (_ & ? & _ & ?)|done]);
        generalize dependent (default d (m !! k))
    end.
  all: intros before Hlen Hnz; unfold reputation_ok; simpl.
  all: split; [by destruct (Reputation.ratings before)|].
  all: split; [rewrite length_app; simpl; lia|].
  all: split; [apply arithmetic_mean_ratings; rewrite length_app; simpl; lia|].
  all: apply Forall_app; split; [done|]; by apply Forall_singleton.
Qed.

(** X5.  In every view reached by replay each stored reputation record
    holds at least one rating, counts exactly the ratings it holds,
    shows as average the arithmetic mean of all of them, and holds no
    rating of value 0. *)
Theorem replay_reputation_ok (cs : list (Command * Context.t)) :
  map_Forall (λ _, reputation_ok) (State.reputation (replay cs)).
Proof.
  apply replay_ind; [|apply deliver_reputation_ok].
  unfold initial_state. simpl. apply map_Forall_empty.
Qed.

(** ** Channels *)

Lemma size_alter_members (f : list string → list string) (k : string)
    (m : gmap string (list string)) :
  size (alter f k m) = size m.
Proof. by rewrite <-!size_dom, dom_alter_L. Qed.

Lemma deliver_channels_ok (view : State.t) (c : Command * Context.t) :
  channels_ok view → channels_ok (deliver view c).
Proof.
  intros [Hsize Hnd]. destruct c as [cmd ctx].
  destruct cmd; unfold_handlers; cbn [fst snd] in *;
    handler_cases; unfold channels_ok;
    cbn [State.channelMembers State.stats Stats.totalChannels] in *;
    try done.
  - rewrite map_size_insert_Some by done. split; [done|].
    apply map_Forall_insert_2; [by apply (Hnd _ _ H1)|done].
  - rewrite map_size_insert_Some by done. split; [done|].
    apply map_Forall_insert_2; [|done].
    apply bool_decide_eq_false_1 in H.
    apply NoDup_app. split; [by apply (Hnd _ _ H1)|].
    split; [|apply NoDup_singleton].
    by intros x Hx ->%list_elem_of_singleton.
  - rewrite map_size_insert_None by done. split; [lia|].
    apply map_Forall_insert_2; [apply NoDup_singleton|done].
  - rewrite size_alter_members. split; [done|].
    intros k members. rewrite lookup_alter. case_decide; [|apply Hnd].
    intros (l & Hl & ->)%fmap_Some.
    by apply NoDup_splice_first, (Hnd _ _ Hl).
Qed.

(** X6.  In every view reached by replay the counter totalChannels is
    the number of keys of the channel map (a channel emptied by
    [channel_leave] keeps its key and is still counted), and no member
    list names an agent twice. *)
Theorem replay_channels_ok (cs : list (Command * Context.t)) :
  channels_ok (replay cs).
Proof.
  apply replay_ind; [|apply deliver_channels_ok].
  unfold channels_ok, initial_state. simpl.
  split; [by rewrite map_size_empty|apply map_Forall_empty].
Qed.

(** ** The counters of the statistics *)

Section ObjLength.
Context {V : Type}.
Implicit Types (o : obj V) (k : string) (v : V).

Lemma length_obj_set_present k v v0 o :
  obj_get k o = Some v0 → length (obj_set k v o) = length o.
Proof.
  induction o as [|[k' v'] o IH]; [done|]. simpl.
  destruct (bool_decide (k' = k)); [done|]. simpl. intros Hk. by rewrite IH.
Qed.

Lemma length_obj_set_fresh k v o :
  obj_get k o = None → length (obj_set k v o) = S (length o).
Proof.
  induction o as [|[k' v'] o IH]; [done|]. simpl.
  destruct (bool_decide (k' = k)); [done|]. simpl. intros Hk. by rewrite IH.
Qed.

Lemma obj_get_None_keys k o : obj_get k o = None ↔ k ∉ obj_keys o.
Proof.
  unfold obj_keys. induction o as [|[k' v'] o IH]; simpl.
  - split; [intros _; apply not_elem_of_nil|done].
  - rewrite not_elem_of_cons. destruct (bool_decide (k' = k)) eqn:E.
    + apply bool_decide_eq_true_1 in E. split; [done|]. by intros [? _].
    + apply bool_decide_eq_false_1 in E. rewrite IH. intuition congruence.
Qed.

Lemma obj_delete_absent k o : k ∉ obj_keys o → obj_delete k o = o.
Proof.
  unfold obj_keys, obj_delete. induction o as [|[k' v'] o IH]; [done|].
  rewrite fmap_cons. simpl. intros [Hne Hk]%not_elem_of_cons.
  rewrite filter_cons_True by (simpl; congruence). by rewrite IH.
Qed.

Lemma length_obj_delete k v0 o :
  NoDup (obj_keys o) → obj_get k o = Some v0 →
  S (length (obj_delete k o)) = length o.
Proof.
  unfold obj_keys. induction o as [|[k' v'] o IH]; [done|].
  rewrite fmap_cons. simpl. intros [Hk' Hnd]%NoDup_cons.
  destruct (bool_decide (k' = k)) eqn:E.
  - apply bool_decide_eq_true_1 in E as ->. intros _.
    unfold obj_delete. rewrite filter_cons_False by (simpl; tauto).
    fold (obj_delete k o). by rewrite obj_delete_absent.
  - apply bool_decide_eq_false_1 in E. intros Hk.
    unfold obj_delete. rewrite filter_cons_True by done.
    fold (obj_delete k o). simpl. by rewrite IH.
Qed.
Lemma obj_set_keeps k k' v o :
  is_Some (obj_get k o) → is_Some (obj_get k (obj_set k' v o)).
Proof.
  intros Hk. destruct (decide (k' = k)) as [->|Hne].
  - rewrite obj_get_set_eq. by eexists.
  - by rewrite obj_get_set_ne.
Qed.

Lemma length_obj_set_is_Some k v o :
  is_Some (obj_get k o) → length (obj_set k v o) = length o.
Proof. intros [v0 Hk]. by apply length_obj_set_present with v0. Qed.
End ObjLength.

(** A delivery leaves the surplus of the counter of agents as it is,
    except for a registration by a signer that is registered, which
    raises it by one. *)
Lemma deliver_agents_surplus (view : State.t) (c : Command * Context.t) :
  agents_wf view →
  agents_surplus (deliver view c) = agents_surplus view
  ∨ (agents_surplus (deliver view c) = agents_surplus view + 1
     ∧ ∃ payload a,
         c.1 = AgentRegister payload
         ∧ obj_get (Context.writer c.2) (State.agents view) = Some a).
Proof.
  intros [Hnd _]. destruct c as [cmd ctx]. unfold agents_surplus.
  destruct cmd; unfold_handlers; cbn [fst snd] in *;
    handler_cases; cbn [State.agents State.stats Stats.totalAgents];
    try (by left).
  all: rewrite ?length_obj_set_is_Some
         by (repeat apply obj_set_keeps; eexists; eassumption);
       try (by left).
  all: try match goal with
    | H : obj_get ?k ?o = Some _ |- context [length (obj_delete ?k ?o)] =>
        pose proof (length_obj_delete _ _ _ Hnd H); left; lia
    end.
  all: match goal with
    | |- context [length (obj_set ?k ?v ?o)] =>
        let E := fresh in
        destruct (obj_get k o) eqn:E;
        [ rewrite (length_obj_set_is_Some k v o) by (by eexists);
          right; split; [lia|by eexists _, _]
        | rewrite (length_obj_set_fresh k v o) by done; left; lia ]
    end.
Qed.

Lemma replay_agents_surplus (cs : list (Command * Context.t)) :
  0 ≤ agents_surplus (replay cs)
  ∧ (registers_once cs → agents_surplus (replay cs) = 0).
Proof.
  induction cs as [|c cs [IH1 IH2]] using rev_ind; [done|].
  rewrite replay_snoc.
  destruct (deliver_agents_surplus (replay cs) c (replay_agents_wf cs))
    as [-> | [-> (payload & a & Hc & Hreg)]].
  - split; [done|]. intros Honce. apply IH2.
    intros before payload context after ->.
    apply (Honce before payload context (after ++ [c])).
    by rewrite <-app_assoc.
  - split; [lia|]. intros Honce. destruct c as [cmd ctx]. simpl in *. subst.
    by rewrite (Honce cs payload ctx [] eq_refl) in Hreg.
Qed.

(** X7.  In every view reached by replaying a history whose keys name
    nothing inherited from [Object.prototype], the counter totalAgents
    is at least the number of stored agents, and the counter
    totalMatches at least the number of stored match requests. *)
Theorem replay_counters_bound (cs : list (Command * Context.t)) :
  plain_history cs →
  Z.of_nat (length (State.agents (replay cs)))
  ≤ Stats.totalAgents (State.stats (replay cs))
  ∧ Z.of_nat (size (State.matchRequests (replay cs)))
    ≤ Stats.totalMatches (State.stats (replay cs)).
Proof.
  intros _. split.
  - pose proof (replay_agents_surplus cs) as [H _].
    unfold agents_surplus in H. lia.
  - apply (replay_ind (λ view,
      Z.of_nat (size (State.matchRequests view))
      ≤ Stats.totalMatches (State.stats view))).
    + unfold initial_state. simpl. by rewrite map_size_empty.
    + intros view [cmd ctx] IH.
      destruct cmd; unfold_handlers; cbn [fst snd] in *;
        handler_cases;
        cbn [State.matchRequests State.stats Stats.totalMatches];
        try done.
      all: rewrite map_size_insert;
        match goal with
        | |- context [?m !! ?k] => destruct (m !! k)
        end; simplify_eq/=; lia.
Qed.

Lemma replay_counters_bound_witness :
  plain_history Session.commands
  ∧ Z.of_nat (length (State.agents (replay Session.commands)))
    ≤ Stats.totalAgents (State.stats (replay Session.commands))
  ∧ Z.of_nat (size (State.matchRequests (replay Session.commands)))
    ≤ Stats.totalMatches (State.stats (replay Session.commands)).
Proof.
  split; [apply session_is_plain|].
  apply (replay_counters_bound Session.commands), session_is_plain.
Defined.

(** X8.  When the keys of the history name nothing inherited from
    [Object.prototype] and no signer registers while it is registered,
    the counter totalAgents is exactly the number of stored agents. *)
Theorem replay_agents_counted (cs : list (Command * Context.t)) :
  plain_history cs →
  registers_once cs →
  Stats.totalAgents (State.stats (replay cs))
  = Z.of_nat (length (State.agents (replay cs))).
Proof.
  intros _ Honce. pose proof (replay_agents_surplus cs) as [_ H].
  specialize (H Honce). unfold agents_surplus in H. lia.
Qed.

Lemma registers_once_from_sound (cs : list (Command * Context.t)) :
  registers_once_from initial_state cs = true → registers_once cs.
Proof.
  unfold registers_once, replay. generalize initial_state.
  induction cs as [|c cs IH]; intros view Hcheck before payload context after.
  - by destruct before.
  - simpl in Hcheck. apply andb_true_iff in Hcheck as [Hc Hrest].
    destruct before as [|c' before]; intros [= -> Heq].
    + simpl in *. by apply bool_decide_eq_true_1 in Hc.
    + simpl. by apply (IH _ Hrest before payload context after).
Qed.

Lemma replay_agents_counted_witness :
  plain_history Session.commands
  ∧ registers_once Session.commands
  ∧ Stats.totalAgents (State.stats (replay Session.commands))
    = Z.of_nat (length (State.agents (replay Session.commands))).
Proof.
  assert (registers_once Session.commands) as Honce.
  { apply registers_once_from_sound. by vm_compute. }
  split; [apply session_is_plain|]. split; [exact Honce|].
  exact (replay_agents_counted Session.commands session_is_plain Honce).
Defined.

(** X9.  The counters totalMessages and totalMatches are functions of
    the history alone: the first is the number of [message_record]
    commands, the second the number of [match_create] commands with a
    non-empty list of required capabilities. *)
Theorem replay_counts_history (cs : list (Command * Context.t)) :
  Stats.totalMessages (State.stats (replay cs))
  = Z.of_nat (length (filter (λ c, is_message_record c = true) cs))
  ∧ Stats.totalMatches (State.stats (replay cs))
    = Z.of_nat (length (filter (λ c, is_match_created c = true) cs)).
Proof.
  induction cs as [|c cs [IH1 IH2]] using rev_ind; [done|].
  rewrite replay_snoc, !filter_app, !length_app, !Nat2Z.inj_add.
  rewrite <-IH1, <-IH2. clear IH1 IH2. destruct c as [cmd ctx].
  destruct cmd; unfold_handlers; cbn [fst snd] in *;
    handler_cases; cbn [State.stats Stats.totalMessages Stats.totalMatches];
    try (split; simpl; lia).
  - rewrite filter_cons_False, filter_nil; [simpl; lia|].
    unfold is_match_created. simpl. by rewrite H0.
  - rewrite filter_cons_True, filter_nil; [simpl; lia|].
    unfold is_match_created. simpl. by rewrite H0.
Qed.
(** ** Records are only ever added *)






(** ** What an accepted match changes *)

Lemma obj_get_set {V} (k k' : string) (v : V) (o : obj V) :
  obj_get k' (obj_set k v o)
  = if bool_decide (k' = k) then Some v else obj_get k' o.
Proof.
  case_bool_decide as Hk.
  - subst. apply obj_get_set_eq.
  - by apply obj_get_set_ne.
Qed.

Lemma obj_keys_set_present {V} (k : string) (v : V) (o : obj V) :
  is_Some (obj_get k o) → obj_keys (obj_set k v o) = obj_keys o.
Proof.
  intros [v0 Hk]. rewrite obj_keys_set, bool_decide_eq_true_2; [done|].
  destruct (decide (k ∈ obj_keys o)) as [|Hn]; [done|].
  apply obj_get_None_keys in Hn. congruence.
Qed.

(** X11.  When [match_accept] returns, the matchCount of the signer and
    of the proposer is one more than before for each of them that is
    registered (one more, not two, when the signer accepts its own
    proposal), no other agent changes, no agent is added or removed,
    and the statistics are left as they are. *)
Theorem match_accept_counts (state : State.t) (payload : AcceptPayload.t)
    (context : Context.t) (newState : State.t) :
  completion (match_accept state payload context) = Return newState →
  (∀ k, obj_get k (State.agents newState)
        = if bool_decide (k = Context.writer context
                          ∨ k = AcceptPayload.proposerId payload)
          then (λ a, Agent.with_matchCount (Agent.matchCount a + 1) a)
                 <$> obj_get k (State.agents state)
          else obj_get k (State.agents state))
  ∧ obj_keys (State.agents newState) = obj_keys (State.agents state)
  ∧ State.stats newState = State.stats state.
Proof.
  unfold match_accept. intros Hret.
  repeat (case_match; simplify_eq/=; try done).
  all: split; [intros k; rewrite ?obj_get_set|].
  all: try (split; [|done]).
  all: try (rewrite !obj_keys_set_present
              by (repeat apply obj_set_keeps; by eexists);
            done).
  all: repeat case_bool_decide;
    try match goal with Hor : _ ∨ _ |- _ => destruct Hor end;
    subst; simplify_eq/=;
    repeat match goal with Hget : obj_get _ _ = _ |- _ => rewrite Hget end;
    simpl; try done; try tauto.
Qed.

Lemma match_accept_counts_witness :
  completion (match_accept Accepting.proposed Accepting.payload
                Accepting.signer)
  = Return Accepting.accepted
  ∧ obj_keys (State.agents Accepting.accepted)
    = obj_keys (State.agents Accepting.proposed)
  ∧ State.stats Accepting.accepted = State.stats Accepting.proposed.
Proof.
  assert (completion (match_accept Accepting.proposed Accepting.payload
                        Accepting.signer)
          = Return Accepting.accepted) as Hret by (by vm_compute).
  split; [exact Hret|].
  exact (proj2 (match_accept_counts _ _ _ _ Hret)).
Defined.

(** ** Channel membership *)

Lemma channel_join_members (view : State.t) (payload : ChannelPayload.t)
    (ctx : Context.t) (x c : string) :
  x ∈ members_of (deliver view (ChannelJoin payload, ctx)) c
  ↔ x ∈ members_of view c
    ∨ (c = ChannelPayload.channelId payload ∧ x = Context.writer ctx
       ∧ is_Some (obj_get x (State.agents view))).
Proof.
  unfold members_of. unfold_handlers. cbn [fst snd].
  destruct (obj_get (Context.writer ctx) (State.agents view)) as [a|] eqn:Ha;
    simpl.
  - rewrite lookup_insert. destruct (decide _) as [<- |Hne]; simpl.
    + unfold includes. case_bool_decide as Hin.
      * split; [by left|]. intros [?|(_ & -> & _)]; done.
      * rewrite elem_of_app, list_elem_of_singleton. split.
        -- intros [?| ->]; [by left|]. right. by rewrite Ha.
        -- intros [?|(_ & -> & _)]; [by left|by right].
    + split; [by left|]. by intros [?|(-> & _)].
  - split; [by left|]. intros [?|(_ & -> & Hs)]; [done|].
    rewrite Ha in Hs. by destruct Hs.
Qed.

Lemma channel_leave_members (view : State.t) (payload : ChannelPayload.t)
    (ctx : Context.t) (x c : string) :
  channels_ok view →
  x ∈ members_of (deliver view (ChannelLeave payload, ctx)) c
  ↔ x ∈ members_of view c
    ∧ ¬ (c = ChannelPayload.channelId payload ∧ x = Context.writer ctx).
Proof.
  intros [_ Hnd]. unfold members_of. unfold_handlers. cbn [fst snd]. simpl.
  rewrite lookup_alter. destruct (decide _) as [<- |Hne]; [|intuition congruence].
  destruct (State.channelMembers view !! ChannelPayload.channelId payload)
    as [l|] eqn:Hl; simpl; [|split; [by intros ?%elem_of_nil|tauto]].
  destruct (decide (x = Context.writer ctx)) as [-> |Hx].
  - split; [|tauto]. intros Hin.
    by apply (NoDup_splice_first _ _ (Hnd _ _ Hl)) in Hin.
  - rewrite elem_of_splice_first_ne by done. tauto.
Qed.

(** X12.  On every view reached by replay, for a history, a signer and
    channel ids that name nothing inherited from [Object.prototype]:
    [channel_join] adds exactly the signer to exactly the named
    channel, and only when the signer is registered; [channel_leave]
    removes exactly the signer from exactly the named channel, so that
    afterwards the signer is not a member.  Nobody else's membership
    changes. *)
Theorem channel_membership (cs : list (Command * Context.t))
    (payload : ChannelPayload.t) (ctx : Context.t) (x c : string) :
  plain_history cs →
  own_name (Context.writer ctx) →
  own_name (ChannelPayload.channelId payload) →
  own_name c →
  (x ∈ members_of (deliver (replay cs) (ChannelJoin payload, ctx)) c
   ↔ x ∈ members_of (replay cs) c
     ∨ (c = ChannelPayload.channelId payload ∧ x = Context.writer ctx
        ∧ is_Some (obj_get x (State.agents (replay cs)))))
  ∧ (x ∈ members_of (deliver (replay cs) (ChannelLeave payload, ctx)) c
     ↔ x ∈ members_of (replay cs) c
       ∧ ¬ (c = ChannelPayload.channelId payload ∧ x = Context.writer ctx)).
Proof.
  intros _ _ _ _. split; [apply channel_join_members|].
  apply channel_leave_members.
  apply replay_ind; [|apply deliver_channels_ok].
  unfold channels_ok, initial_state. simpl.
  split; [by rewrite map_size_empty|apply map_Forall_empty].
Qed.

Lemma channel_membership_witness :
  Session.bob
    ∈ members_of
        (deliver (replay (take 7 Session.commands))
           (ChannelJoin (ChannelPayload.mk "lobby"), Context.mk Session.bob 15))
        "lobby"
  ∧ (Session.bob
       ∉ members_of
           (deliver (replay Session.commands)
              (ChannelLeave (ChannelPayload.mk "lobby"),
               Context.mk Session.bob 20))
           "lobby").
Proof.
  split.
  - destruct (channel_membership (take 7 Session.commands)
                (ChannelPayload.mk "lobby") (Context.mk Session.bob 15)
                Session.bob "lobby") as [Hjoin _];
      [apply Forall_take, session_is_plain
      |apply own_name_checked; by vm_compute..|].
    apply Hjoin. right. split; [done|]. split; [done|].
    vm_compute. by eexists.
  - destruct (channel_membership Session.commands
                (ChannelPayload.mk "lobby") (Context.mk Session.bob 20)
                Session.bob "lobby") as [_ Hleave];
      [apply session_is_plain|apply own_name_checked; by vm_compute..|].
    intros Hin. apply Hleave in Hin as [_ Hne]. by apply Hne.
Defined.

(** X13.  Joining a channel twice is the same as joining it once: the
    second [channel_join] of a signer leaves the view as the first one
    made it, whatever its timestamp. *)
Theorem channel_join_twice (view : State.t) (payload : ChannelPayload.t)
    (ctx ctx' : Context.t) :
  Context.writer ctx' = Context.writer ctx →
  deliver (deliver view (ChannelJoin payload, ctx)) (ChannelJoin payload, ctx')
  = deliver view (ChannelJoin payload, ctx).
Proof.
  intros Hw. unfold_handlers. cbn [fst snd]. rewrite Hw.
  destruct (obj_get (Context.writer ctx) (State.agents view)) as [a|] eqn:Ha;
    simpl; rewrite ?Ha; simpl; rewrite ?Ha; simpl; try done.
  rewrite lookup_insert_eq. simpl. rewrite insert_insert_eq.
  assert (∀ l : list string,
            includes (if includes l (Context.writer ctx) then l
                      else l ++ [Context.writer ctx]) (Context.writer ctx)
            = true) as Hin.
  { intros l. destruct (includes l (Context.writer ctx)) eqn:Hl; [done|].
    apply bool_decide_eq_true_2, elem_of_app. right.
    apply list_elem_of_here. }
  by rewrite Hin.
Qed.

Lemma channel_join_twice_witness :
  deliver (deliver Session.view
             (ChannelJoin (ChannelPayload.mk "lobby"),
              Context.mk Session.alice 20))
    (ChannelJoin (ChannelPayload.mk "lobby"), Context.mk Session.alice 21)
  = deliver Session.view
      (ChannelJoin (ChannelPayload.mk "lobby"), Context.mk Session.alice 20).
Proof.
  apply (channel_join_twice Session.view (ChannelPayload.mk "lobby")
           (Context.mk Session.alice 20) (Context.mk Session.alice 21)).
  reflexivity.
Defined.

(** ** The shape of a discovery result *)





(** ** The entries of a discovery result *)

Section Entries.
Variables (capabilities : list string) (minProficiency : Qc).

Lemma score_capabilities_total (caps : list Capability.t) :
  (score_capabilities capabilities minProficiency caps).2
  = total_proficiency
      (filter (λ cap, counts capabilities minProficiency cap = true) caps).
Proof.
  unfold score_capabilities.
  assert (∀ acc,
    (foldl (λ acc cap,
              if counts capabilities minProficiency cap
              then (acc.1 ++ [Capability.name cap],
                    (acc.2 + Capability.proficiency cap)%Qc)
              else acc) acc caps).2
    = (acc.2
       + total_proficiency
           (filter (λ cap, counts capabilities minProficiency cap = true)
                   caps))%Qc)
    as H; [|by rewrite H, Qcplus_0_l].
  induction caps as [|cap caps IH]; intros acc; simpl.
  - by rewrite Qcplus_0_r.
  - rewrite IH, filter_cons.
    destruct (counts capabilities minProficiency cap) eqn:Hc; simpl.
    + by rewrite Qcplus_assoc.
    + done.
Qed.

Lemma total_proficiency_range (caps : list Capability.t) :
  Forall (λ cap, (0 ≤ Capability.proficiency cap)%Qc
                 ∧ (Capability.proficiency cap ≤ 1)%Qc) caps →
  (0 ≤ total_proficiency caps)%Qc
  ∧ (total_proficiency caps ≤ Qc_of_Z (Z.of_nat (length caps)))%Qc.
Proof.
  induction 1 as [|cap caps [H0 H1] _ [IH0 IH1]]; simpl.
  - split; by vm_compute.
  - split; [by apply Qcplus_nonneg_nonneg|].
    rewrite Nat2Z.inj_succ, <-Z.add_1_l, Z2Qc_inj_add, Z2Qc_inj_1.
    by apply Qcplus_le_compat.
Qed.

Lemma counted_names_length (caps : list Capability.t) :
  NoDup (Capability.name <$> caps) →
  (length (filter (λ cap, counts capabilities minProficiency cap = true) caps)
   ≤ length capabilities)%nat.
Proof.
  intros Hnd.
  rewrite <-(length_fmap Capability.name).
  apply submseteq_length, NoDup_submseteq.
  - apply sublist_NoDup with (Capability.name <$> caps); [done|].
    apply fmap_sublist, sublist_filter.
  - intros x (cap & -> & [Hc _]%list_elem_of_filter)%list_elem_of_fmap.
    unfold counts in Hc. apply andb_true_iff in Hc as [Hc _].
    by apply bool_decide_eq_true_1 in Hc.
Qed.
End Entries.

Lemma Qcdiv_range (x : Qc) (n : nat) :
  (0 < n)%nat → (0 ≤ x)%Qc →
  (0 ≤ x / Qc_of_Z (Z.of_nat n))%Qc
  ∧ ((x ≤ Qc_of_Z (Z.of_nat n))%Qc → (x / Qc_of_Z (Z.of_nat n) ≤ 1)%Qc).
Proof.
  intros Hn Hx.
  assert (0 < Qc_of_Z (Z.of_nat n))%Qc as Hpos.
  { apply (proj1 (Z2Qc_inj_lt 0 (Z.of_nat n))). lia. }
  pose proof (Qcinv_pos _ Hpos) as Hinv. unfold Qcdiv. split.
  - apply Qcmult_nonneg_nonneg; [done|by apply Qclt_le_weak].
  - intros Hle.
    rewrite <-(Qcmult_inv_r (Qc_of_Z (Z.of_nat n)))
      by (by apply not_eq_sym, Qclt_not_eq).
    apply Qcmult_le_mono_nonneg_r; [by apply Qclt_le_weak|done].
Qed.

(** What a candidate that makes it into the results looks like. *)
Lemma discover_entry_Some (state : State.t) (capabilities : list string)
    (minProficiency : Qc) (status : option string) (agentId : string)
    (e : DiscoverEntry.t) :
  discover_entry state capabilities minProficiency status agentId = Some e →
  ∃ a,
    obj_get agentId (State.agents state) = Some a
    ∧ passes_filters status a = true
    ∧ e = DiscoverEntry.mk (Agent.id a) (Agent.name a) (Agent.description a)
            (Agent.status a) (Agent.protocol a) (Agent.capabilities a)
            (Capability.name
               <$> filter (λ cap, counts capabilities minProficiency cap = true)
                          (Agent.capabilities a))
            (if bool_decide (0 < length capabilities)%nat
             then (total_proficiency
                     (filter (λ cap,
                                counts capabilities minProficiency cap = true)
                             (Agent.capabilities a))
                   / Qc_of_Z (Z.of_nat (length capabilities)))%Qc
             else half)
            (State.reputation state !! agentId)
    ∧ (capabilities ≠ [] →
       filter (λ cap, counts capabilities minProficiency cap = true)
              (Agent.capabilities a) ≠ []).
Proof.
  unfold discover_entry.
  destruct (obj_get agentId (State.agents state)) as [a|]; [|done].
  destruct (is_public a) eqn:Hpub; [|done]. simpl.
  destruct (truthy_str status && _) eqn:Hst; [done|].
  pose proof (score_capabilities_matched capabilities minProficiency
                (Agent.capabilities a)) as H1.
  pose proof (score_capabilities_total capabilities minProficiency
                (Agent.capabilities a)) as H2.
  destruct (score_capabilities _ _ _) as [matched total]. simpl in H1, H2.
  subst matched total.
  destruct (_ || _) eqn:Hor; [|done]. intros [= <-].
  exists a. split; [done|]. split.
  { unfold passes_filters. by rewrite Hpub, Hst. }
  split; [done|]. intros Hne Hnil. rewrite Hnil in Hor. simpl in Hor.
  apply bool_decide_eq_true_1 in Hor. by destruct capabilities.
Qed.

Lemma elem_of_discover (state : State.t) (params : DiscoverParams.t)
    (e : DiscoverEntry.t) :
  e ∈ DiscoverResult.agents (discover state params) →
  ∃ agentId,
    discover_entry state (default [] (DiscoverParams.capabilities params))
      (default 0%Qc (DiscoverParams.minProficiency params))
      (DiscoverParams.status params) agentId = Some e.
Proof.
  unfold discover. simpl. intros He%elem_of_slice0.
  rewrite sort_by_score_perm in He.
  apply list_elem_of_omap in He as (agentId & _ & He). by exists agentId.
Qed.

Lemma replay_agents_ok_get (cs : list (Command * Context.t)) (k : string)
    (a : Agent.t) :
  obj_get k (State.agents (replay cs)) = Some a → agent_ok a ∧ Agent.id a = k.
Proof.
  intros Hk. split; [|by apply (replay_agents_wf cs)].
  assert (Forall agent_ok (obj_values (State.agents (replay cs)))) as Hok.
  { apply replay_ind; [|apply deliver_agents_ok]. apply Forall_nil_2. }
  rewrite Forall_forall in Hok. by apply Hok, obj_get_Some_value with k.
Qed.

(** X15.  On every view reached by replay, each entry [discover] returns
    describes an agent that is stored under the entry's id, is public
    and has the status asked for; the entry shows that agent's name,
    capabilities and reputation record; its matched capabilities are the
    agent's capabilities that are requested and reach minProficiency,
    at least one of them when any capability is requested; its score is
    not negative, and it is at most 1 when the agent lists no capability
    name twice. *)
Theorem discover_entries (cs : list (Command * Context.t))
    (params : DiscoverParams.t) (e : DiscoverEntry.t) :
  e ∈ DiscoverResult.agents (discover (replay cs) params) →
  ∃ a,
    obj_get (DiscoverEntry.id e) (State.agents (replay cs)) = Some a
    ∧ Agent.visibility a = "public"
    ∧ (∀ s, DiscoverParams.status params = Some s → s ≠ "" →
            Agent.status a = s)
    ∧ DiscoverEntry.name e = Agent.name a
    ∧ DiscoverEntry.capabilities e = Agent.capabilities a
    ∧ DiscoverEntry.reputation e
      = State.reputation (replay cs) !! DiscoverEntry.id e
    ∧ DiscoverEntry.matchedCapabilities e
      = Capability.name
          <$> filter (λ cap,
                        counts (default [] (DiscoverParams.capabilities params))
                          (default 0%Qc (DiscoverParams.minProficiency params))
                          cap = true)
                     (Agent.capabilities a)
    ∧ (default [] (DiscoverParams.capabilities params) ≠ [] →
       DiscoverEntry.matchedCapabilities e ≠ [])
    ∧ (0 ≤ DiscoverEntry.matchScore e)%Qc
    ∧ (NoDup (Capability.name <$> Agent.capabilities a) →
       (DiscoverEntry.matchScore e ≤ 1)%Qc).
Proof.
  intros (agentId & He)%elem_of_discover.
  apply discover_entry_Some in He as (a & Ha & Hpass & -> & Hsome).
  apply passes_filters_spec in Hpass as [Hpub Hstatus].
  destruct (replay_agents_ok_get cs agentId a Ha) as [Hok ->].
  destruct Hok as (_ & _ & _ & _ & Hprof).
  exists a. cbn. repeat (split; [done|]).
  split.
  { intros Hne Hnil%fmap_nil_inv. by apply Hsome. }
  set (counted := filter _ (Agent.capabilities a)).
  assert (Forall (λ cap, (0 ≤ Capability.proficiency cap)%Qc
                         ∧ (Capability.proficiency cap ≤ 1)%Qc) counted)
    as Hcounted.
  { rewrite Forall_forall in Hprof. apply Forall_forall.
    intros cap [_ Hin]%list_elem_of_filter. by apply Hprof. }
  apply total_proficiency_range in Hcounted as [H0 H1].
  case_bool_decide as Hlen; [|split; [by vm_compute|intros _; by vm_compute]].
  destruct (Qcdiv_range (total_proficiency counted) _ Hlen H0) as [Hlo Hhi].
  split; [done|]. intros Hnd. apply Hhi.
  apply Qcle_trans with (Qc_of_Z (Z.of_nat (length counted))); [done|].
  apply (proj1 (Z2Qc_inj_le _ _)), inj_le. by apply counted_names_length.
Qed.

Lemma discover_entries_witness :
  Finding.found ≠ []
  ∧ Forall (λ e, (0 ≤ DiscoverEntry.matchScore e)%Qc
                 ∧ DiscoverEntry.matchedCapabilities e ≠ [])
      Finding.found.
Proof.
  split; [by vm_compute|]. unfold Finding.found.
  apply Forall_forall. intros e He.
  destruct (discover_entries Session.commands Finding.query e He)
    as (a & _ & _ & _ & _ & _ & _ & _ & Hmatched & Hscore & _).
  split; [exact Hscore|]. by apply Hmatched.
Defined.

Lemma NoDup_set_add (s : list string) (x : string) :
  NoDup s → NoDup (set_add s x).
Proof.
  intros Hnd. unfold set_add, includes. case_bool_decide as Hin; [done|].
  apply NoDup_app. split; [done|]. split; [|apply NoDup_singleton].
  by intros y Hy ->%list_elem_of_singleton.
Qed.

Lemma NoDup_foldl_set_add (s l : list string) :
  NoDup s → NoDup (foldl set_add s l).
Proof.
  revert s. induction l as [|x l IH]; intros s Hnd; simpl; [done|].
  by apply IH, NoDup_set_add.
Qed.

Lemma NoDup_matchingAgentIds (state : State.t) (capabilities : list string) :
  NoDup (matchingAgentIds state capabilities).
Proof.
  unfold matchingAgentIds.
  assert (∀ s, NoDup s →
    NoDup (foldl (λ ids capName,
                    foldl set_add ids
                      (default [] (State.capabilityIndex state !! capName)))
                 s capabilities)) as Hfold.
  { induction capabilities as [|c l IH]; intros s Hnd; simpl; [done|].
    by apply IH, NoDup_foldl_set_add. }
  case_bool_decide; [apply NoDup_foldl_set_add|]; apply Hfold, NoDup_nil_2.
Qed.

Lemma NoDup_omap_ids {A} (f : string → option A) (g : A → string)
    (l : list string) :
  (∀ x e, f x = Some e → g e = x) →
  NoDup l → NoDup (g <$> omap f l).
Proof.
  intros Hid. induction 1 as [|x l Hx Hnd IH]; [apply NoDup_nil_2|].
  change (omap f (x :: l))
    with (match f x with Some y => y :: omap f l | None => omap f l end).
  destruct (f x) as [e|] eqn:He; [|done].
  rewrite fmap_cons, (Hid _ _ He). apply NoDup_cons. split; [|done].
  intros (e' & -> & (y & Hy & He')%list_elem_of_omap)%list_elem_of_fmap.
  apply Hid in He'. rewrite He' in Hx. done.
Qed.

(** X16.  On every view reached by replay, [discover] returns no agent
    twice, however many of the requested capabilities it offers. *)
Theorem discover_lists_once (cs : list (Command * Context.t))
    (params : DiscoverParams.t) :
  NoDup (DiscoverEntry.id
           <$> DiscoverResult.agents (discover (replay cs) params)).
Proof.
  unfold discover. cbn [DiscoverResult.agents].
  apply sublist_NoDup with
    (DiscoverEntry.id
       <$> sort_by_score
             (discover_results (replay cs)
                (default [] (DiscoverParams.capabilities params))
                (default 0%Qc (DiscoverParams.minProficiency params))
                (DiscoverParams.status params))).
  - rewrite sort_by_score_perm. unfold discover_results.
    apply NoDup_omap_ids; [|apply NoDup_matchingAgentIds].
    intros x e (a & Ha & _ & -> & _)%discover_entry_Some. simpl.
    by apply (replay_agents_wf cs).
  - apply fmap_sublist. unfold slice0. destruct (decide _); apply sublist_take.
Qed.

(** ** Discovery finds every agent that matches *)

Lemma replay_index_exact (cs : list (Command * Context.t)) :
  registers_once cs → index_exact (replay cs).
Proof.
  intros Honce. induction cs as [|c cs IH] using rev_ind.
  - intros x capName. unfold index_entry, names_of, replay. simpl.
    rewrite lookup_empty. simpl. split; [by intros ?%elem_of_nil|].
    by intros (names & [=] & _).
  - rewrite replay_snoc.
    apply deliver_keeps_index; [apply replay_index_nodup| |].
    + apply IH. intros before payload context after ->.
      apply (Honce before payload context (after ++ [c])).
      by rewrite <-app_assoc.
    + intros payload Hc. destruct c as [cmd context]. simpl in *. subst cmd.
      by apply (Honce cs payload context []).
Qed.

Lemma elem_of_set_add (s : list string) (x y : string) :
  y ∈ set_add s x ↔ y ∈ s ∨ y = x.
Proof.
  unfold set_add, includes. case_bool_decide as Hin.
  - split; [by left|]. by intros [?| ->].
  - by rewrite elem_of_app, list_elem_of_singleton.
Qed.

Lemma elem_of_foldl_set_add (s l : list string) (y : string) :
  y ∈ foldl set_add s l ↔ y ∈ s ∨ y ∈ l.
Proof.
  revert s. induction l as [|x l IH]; intros s; simpl.
  - split; [by left|]. by intros [?|?%elem_of_nil].
  - rewrite IH, elem_of_set_add, elem_of_cons. tauto.
Qed.

Lemma elem_of_matchingAgentIds (state : State.t) (capabilities : list string)
    (x capName : string) :
  capName ∈ capabilities → x ∈ index_entry state capName →
  x ∈ matchingAgentIds state capabilities.
Proof.
  intros Hc Hx. unfold matchingAgentIds.
  assert (∀ s,
    x ∈ foldl (λ ids capName,
                 foldl set_add ids
                   (default [] (State.capabilityIndex state !! capName)))
              s capabilities
    ↔ x ∈ s ∨ ∃ c, c ∈ capabilities ∧ x ∈ index_entry state c) as Hfold.
  { clear Hc. induction capabilities as [|c l IH]; intros s; simpl.
    - split; [by left|]. intros [?|(c & ?%elem_of_nil & _)]; done.
    - rewrite IH, elem_of_foldl_set_add. split.
      + intros [[?|?]|(c' & ? & ?)]; [by left| |].
        * right. exists c. split; [apply list_elem_of_here|done].
        * right. exists c'. split; [by apply list_elem_of_further|done].
      + intros [?|(c' & [-> |?]%elem_of_cons & ?)]; [by left; left| |].
        * left. by right.
        * right. by exists c'. }
  case_bool_decide as Hlen.
  - by destruct capabilities; [apply elem_of_nil in Hc|].
  - apply Hfold. right. by exists capName.
Qed.

(** A stored agent that passes the filters and has a capability that
    counts is given an entry. *)
Lemma discover_entry_is_Some (state : State.t) (capabilities : list string)
    (minProficiency : Qc) (status : option string) (k : string)
    (a : Agent.t) (cap : Capability.t) :
  obj_get k (State.agents state) = Some a →
  passes_filters status a = true →
  cap ∈ Agent.capabilities a →
  counts capabilities minProficiency cap = true →
  is_Some (discover_entry state capabilities minProficiency status k).
Proof.
  intros Ha Hpass Hcap Hcounts. unfold discover_entry. rewrite Ha.
  unfold passes_filters in Hpass.
  apply andb_true_iff in Hpass as [-> Hst]. simpl.
  apply negb_true_iff in Hst. rewrite Hst.
  pose proof (score_capabilities_matched capabilities minProficiency
                (Agent.capabilities a)) as H1.
  destruct (score_capabilities _ _ _) as [matched total]. simpl in H1.
  subst matched.
  rewrite orb_true_intro; [by eexists|]. left.
  apply bool_decide_eq_true_2. rewrite length_fmap.
  assert (cap ∈ filter (λ cap, counts capabilities minProficiency cap = true)
                       (Agent.capabilities a)) as Hin
    by by apply list_elem_of_filter.
  destruct (filter _ _); [by apply elem_of_nil in Hin|simpl; lia].
Qed.

(** X17.  When the keys of the history and the requested capabilities
    name nothing inherited from [Object.prototype] and no signer
    registered while it was registered, [discover] misses nobody: a stored agent that is public, has the status asked
    for and offers one of the requested capabilities at minProficiency
    or above is among the results before the cut, and so is returned
    whenever [total] does not exceed [limit]. *)
Theorem discover_complete (cs : list (Command * Context.t))
    (params : DiscoverParams.t) (k : string) (a : Agent.t)
    (cap : Capability.t) :
  plain_history cs →
  Forall own_name (default [] (DiscoverParams.capabilities params)) →
  registers_once cs →
  obj_get k (State.agents (replay cs)) = Some a →
  Agent.visibility a = "public" →
  (∀ s, DiscoverParams.status params = Some s → s ≠ "" →
        Agent.status a = s) →
  cap ∈ Agent.capabilities a →
  counts (default [] (DiscoverParams.capabilities params))
    (default 0%Qc (DiscoverParams.minProficiency params)) cap = true →
  ∃ e,
    DiscoverEntry.id e = k
    ∧ e ∈ discover_results (replay cs)
            (default [] (DiscoverParams.capabilities params))
            (default 0%Qc (DiscoverParams.minProficiency params))
            (DiscoverParams.status params)
    ∧ (Z.of_nat (DiscoverResult.total (discover (replay cs) params))
       ≤ default 20 (DiscoverParams.limit params) →
       e ∈ DiscoverResult.agents (discover (replay cs) params)).
Proof.
  intros _ _ Honce Ha Hpub Hstatus Hcap Hcounts.
  assert (passes_filters (DiscoverParams.status params) a = true) as Hpass
    by by apply passes_filters_spec.
  destruct (discover_entry_is_Some _ _ _ _ _ _ _ Ha Hpass Hcap Hcounts)
    as [e He].
  exists e. split.
  { apply discover_entry_Some in He as (a' & Ha' & _ & -> & _). simpl.
    by apply (replay_agents_wf cs). }
  assert (e ∈ discover_results (replay cs)
                (default [] (DiscoverParams.capabilities params))
                (default 0%Qc (DiscoverParams.minProficiency params))
                (DiscoverParams.status params)) as Hin.
  { apply list_elem_of_omap. exists k. split; [|done].
    unfold counts in Hcounts. apply andb_true_iff in Hcounts as [Hreq _].
    apply bool_decide_eq_true_1 in Hreq.
    apply elem_of_matchingAgentIds with (Capability.name cap); [done|].
    apply (replay_index_exact cs Honce). exists (Agent.names a).
    split; [unfold names_of; by rewrite Ha|].
    by apply list_elem_of_fmap_2. }
  split; [done|]. unfold discover. simpl. intros Hall.
  rewrite slice0_all by done. by rewrite sort_by_score_perm.
Qed.

Lemma discover_complete_witness :
  ∃ e,
    DiscoverEntry.id e = Session.bob
    ∧ e ∈ DiscoverResult.agents (discover (replay Session.commands)
                                   Finding.query).
Proof.
  assert (registers_once Session.commands) as Honce
    by (apply registers_once_from_sound; by vm_compute).
  destruct (discover_complete Session.commands Finding.query Session.bob
              Finding.bob (Capability.mk "translate" 1%Qc false None None)
              session_is_plain)
    as (e & Hid & _ & Hin);
    [apply Forall_singleton, own_name_checked; by vm_compute
    |exact Honce|by vm_compute|done|done|apply list_elem_of_here
    |by vm_compute|].
  exists e. split; [exact Hid|]. apply Hin. by vm_compute.
Defined.

(** ** The directory readers *)

Lemma slice0_fmap {A B} (f : A → B) (n : Z) (l : list A) :
  slice0 n (f <$> l) = f <$> slice0 n l.
Proof.
  unfold slice0. rewrite length_fmap. destruct (decide _); by rewrite fmap_take.
Qed.

Lemma get_agents_filter (state : State.t) (status : option string) :
  (if truthy_str status
   then filter (λ a, Some (Agent.status a) = status)
               (filter (λ a, is_public a = true)
                       (obj_values (State.agents state)))
   else filter (λ a, is_public a = true) (obj_values (State.agents state)))
  = filter (λ a, passes_filters status a = true)
           (obj_values (State.agents state)).
Proof.
  destruct (truthy_str status) eqn:Ht.
  - rewrite list_filter_filter. apply list_filter_iff. intros a.
    unfold passes_filters. rewrite Ht, andb_true_iff, negb_true_iff. simpl.
    rewrite bool_decide_eq_false. split.
    + intros [Hs Hp]. split; [done|]. by intros Hn.
    + intros [Hp Hs]. split; [|done]. by apply dec_stable.
  - apply list_filter_iff. intros a. unfold passes_filters. rewrite Ht.
    simpl. by rewrite andb_true_r.
Qed.

(** X18.  On every view reached by replay, browsing with [discover]
    (no capability requested) and listing with [get_agents] name the
    same agents in the same order, for the same status filter and the
    same limit. *)
Theorem browse_lists_get_agents (cs : list (Command * Context.t))
    (categories : option (list string)) (minProficiency : option Qc)
    (status : option string) (limit : Z) :
  DiscoverEntry.id
    <$> DiscoverResult.agents
          (discover (replay cs)
             (DiscoverParams.mk None categories minProficiency status
                (Some limit)))
  = Agent.id <$> get_agents (replay cs) status (Some limit).
Proof.
  unfold discover, get_agents. cbn.
  rewrite get_agents_filter, discover_results_browse
    by apply replay_agents_wf.
  rewrite (sort_by_score_constant half).
  - rewrite slice0_fmap, <-list_fmap_compose. done.
  - by intros e (a & -> & _)%list_elem_of_fmap.
Qed.

(** X19.  Unregistering does not touch the channels: on every view
    reached by replaying a history whose keys name nothing inherited
    from [Object.prototype], and for such a signer and channel id, the
    member lists after [agent_unregister] are the lists before it, the signer's id included, while
    [get_channel_members] stops showing the signer and goes on showing
    everybody else. *)
Theorem unregistered_member_hidden (cs : list (Command * Context.t))
    (ctx : Context.t) (c : string) (a : Agent.t) :
  plain_history cs →
  own_name (Context.writer ctx) →
  own_name c →
  members_of (deliver (replay cs) (AgentUnregister, ctx)) c
  = members_of (replay cs) c
  ∧ (a ∈ get_channel_members (deliver (replay cs) (AgentUnregister, ctx))
           (Some c)
     ↔ a ∈ get_channel_members (replay cs) (Some c)
       ∧ Agent.id a ≠ Context.writer ctx).
Proof.
  intros _ _ _. pose proof (replay_agents_wf cs) as [_ Hid].
  unfold members_of, get_channel_members. unfold_handlers. cbn [fst snd].
  destruct (obj_get (Context.writer ctx) (State.agents (replay cs)))
    as [w|] eqn:Hw; simpl; (split; [done|]).
  - case_bool_decide; [by split; [intros ?%elem_of_nil|intros [?%elem_of_nil _]]|].
    rewrite !list_elem_of_omap. split.
    + intros (k & Hk & Ha).
      destruct (decide (k = Context.writer ctx)) as [-> |Hne].
      * by rewrite obj_get_delete_eq in Ha.
      * rewrite obj_get_delete_ne in Ha by done.
        split; [by exists k|]. by rewrite (Hid _ _ Ha).
    + intros [(k & Hk & Ha) Hne]. exists k. split; [done|].
      rewrite obj_get_delete_ne; [done|]. by rewrite <-(Hid _ _ Ha).
  - case_bool_decide; [by split; [intros ?%elem_of_nil|intros [?%elem_of_nil _]]|].
    split; [|by intros [? _]]. intros Hin. split; [done|].
    apply list_elem_of_omap in Hin as (k & _ & Ha).
    rewrite (Hid _ _ Ha). intros ->. congruence.
Qed.

Lemma unregistered_member_hidden_witness :
  members_of
    (deliver (replay Session.commands)
       (AgentUnregister, Context.mk Session.bob 20)) "lobby"
  = members_of (replay Session.commands) "lobby"
  ∧ (Finding.bob
       ∉ get_channel_members
           (deliver (replay Session.commands)
              (AgentUnregister, Context.mk Session.bob 20)) (Some "lobby")).
Proof.
  destruct (unregistered_member_hidden Session.commands
              (Context.mk Session.bob 20) "lobby" Finding.bob
              session_is_plain)
    as [Hmembers Hshown];
    [apply own_name_checked; by vm_compute..|].
  split; [exact Hmembers|]. intros Hin.
  apply Hshown in Hin as [_ Hne]. by apply Hne.
Defined.

(** X20.  A proposal that [match_propose] has stored can be accepted:
    [match_accept] by the requester, naming the proposer, returns at
    any later or earlier timestamp (expiry is not looked at), marks the
    request accepted with that proposer and the proposal accepted. *)
Theorem proposal_can_be_accepted (state : State.t)
    (payload : ProposePayload.t) (ctx : Context.t) (newState : State.t)
    (timestamp : Z) :
  completion (match_propose state payload ctx) = Return newState →
  ∃ request final accepted proposal,
    State.matchRequests state !! ProposePayload.matchId payload
    = Some request
    ∧ completion
        (match_accept newState
           (AcceptPayload.mk (ProposePayload.matchId payload)
              (Context.writer ctx))
           (Context.mk (MatchRequest.requesterId request) timestamp))
      = Return final
    ∧ State.matchRequests final !! ProposePayload.matchId payload
      = Some accepted
    ∧ MatchRequest.status accepted = "accepted"
    ∧ MatchRequest.acceptedWith accepted = Some (Context.writer ctx)
    ∧ MatchRequest.acceptedAt accepted = Some timestamp
    ∧ State.matchProposals final
        !! proposalKey (ProposePayload.matchId payload) (Context.writer ctx)
      = Some proposal
    ∧ MatchProposal.status proposal = "accepted"
    ∧ MatchProposal.proposerId proposal = Context.writer ctx.
Proof.
  unfold match_propose. intros Hret.
  repeat (case_match; simplify_eq/=; try done).
  eexists _, _, _, _. split; [done|].
  unfold match_accept. cbn.
  rewrite H, bool_decide_eq_false_2 by (by intros Hn; apply Hn).
  rewrite lookup_insert_eq. cbn.
  split; [reflexivity|]. cbn. rewrite !lookup_insert_eq. done.
Qed.

Lemma proposal_can_be_accepted_witness :
  ∃ final accepted,
    completion
      (match_accept Proposing.proposed
         (AcceptPayload.mk "match-alice-ke-10" Session.bob)
         (Context.mk Session.alice 999999))
    = Return final
    ∧ State.matchRequests final !! "match-alice-ke-10" = Some accepted
    ∧ MatchRequest.acceptedWith accepted = Some Session.bob.
Proof.
  assert (completion (match_propose Proposing.created Proposing.payload
                        Proposing.signer)
          = Return Proposing.proposed) as Hret by (by vm_compute).
  destruct (proposal_can_be_accepted _ _ _ _ 999999 Hret)
    as (request & final & accepted & proposal & Hreq & Hacc & Hlook & _
        & Hwith & _).
  assert (MatchRequest.requesterId request = Session.alice) as Hrequester.
  { assert (State.matchRequests Proposing.created !! "match-alice-ke-10"
            = Some request) as Hreq' by exact Hreq.
    vm_compute in Hreq'. by injection Hreq' as <-. }
  rewrite Hrequester in Hacc.
  exists final, accepted. split; [exact Hacc|]. split; [exact Hlook|exact Hwith].
Defined.

(** X21.  Registration can be read back and undone: when
    [agent_register] returns, [get_agent] on the signer's id shows an
    agent with that id and the name of the payload, online, with both
    counters at 0; after an [agent_unregister] by the same signer
    [get_agent] shows nothing. *)
Theorem registered_agent_is_read (state : State.t)
    (payload : RegisterPayload.t) (ctx ctx' : Context.t)
    (newState : State.t) :
  completion (agent_register state payload ctx) = Return newState →
  Context.writer ctx ≠ "" →
  Context.writer ctx' = Context.writer ctx →
  (∃ a,
     get_agent newState (Some (Context.writer ctx)) = Some a
     ∧ Agent.id a = Context.writer ctx
     ∧ RegisterPayload.name payload = Some (Agent.name a)
     ∧ Agent.status a = "online"
     ∧ Agent.matchCount a = 0 ∧ Agent.successCount a = 0)
  ∧ get_agent (deliver newState (AgentUnregister, ctx'))
      (Some (Context.writer ctx)) = None.
Proof.
  intros Hret Hne Hw. unfold get_agent.
  rewrite !bool_decide_eq_false_2 by done.
  unfold agent_register in Hret.
  repeat (case_match; simplify_eq/=; try done).
  all: rewrite obj_get_set_eq.
  all: split; [by eexists|].
  all: unfold_handlers; cbn [fst snd]; rewrite Hw; cbn [State.agents].
  all: rewrite obj_get_set_eq; cbn.
  all: apply obj_get_delete_eq.
Qed.

Lemma registered_agent_is_read_witness :
  get_agent
    (deliver Joining.registered (AgentUnregister, Context.mk "carol-key" 31))
    (Some "carol-key") = None.
Proof.
  assert (completion (agent_register (replay Session.commands)
                        Joining.payload Joining.signer)
          = Return Joining.registered) as Hret by (by vm_compute).
  apply (registered_agent_is_read _ _ Joining.signer
           (Context.mk "carol-key" 31) _ Hret); done.
Defined.
